(** * kgwsimulator: the compact-difficulty codec, the work estimator, the
    Kimoto Gravity Well retargeting calculator and the simulation driver.

    A shallow embedding of [kgwsimulator.go].  Go's [big.Int] is [Z]; the
    fixed-width integers ([uint32], [int32], [int64]) are [Z] with their
    wrap-around written out; [float64] is the kernel's binary64
    ([PrimFloat]); a run-time panic is a constructor of [result]. *)

From Stdlib Require Import ZArith List Lia Bool Floats.
Import ListNotations.

Open Scope Z_scope.

(** ** Run-time outcomes *)

(** The ways the modelled code can abort: an index (or slice bound)
    outside a slice, [big.Int.Div] by zero, and [log.Fatal]. *)
Inductive panic : Type :=
| IndexOutOfRange
| DivisionByZero
| LogFatal.

Inductive result (A : Type) : Type :=
| Ok (a : A)
| Panic (e : panic).

Arguments Ok {A} a.
Arguments Panic {A} e.

Definition bind {A B : Type} (r : result A) (k : A -> result B) : result B :=
  match r with
  | Ok a => k a
  | Panic e => Panic e
  end.

Notation "'do' x <- r ;; k" := (bind r (fun x => k))
  (at level 10, x name, r at level 100, k at level 200).

(** Go's [error] interface; [None] is [nil]. *)
Inductive error : Type :=
| errorString (code : Z).

(** ** Fixed-width integers *)

Definition wrapU (w x : Z) : Z := x mod 2 ^ w.
Definition wrapS (w x : Z) : Z := (x + 2 ^ (w - 1)) mod 2 ^ w - 2 ^ (w - 1).

Definition uint32 : Z -> Z := wrapU 32.
Definition int32 : Z -> Z := wrapS 32.
Definition int64 : Z -> Z := wrapS 64.

(** ** [math/big] *)

(** [len(n.Bytes())]: the number of bytes of the absolute value. *)
Definition bigBytesLen (n : Z) : Z :=
  if n =? 0 then 0 else Z.log2 (Z.abs n) / 8 + 1.

(** [uint32(n.Bits()[0])]: the low word of the absolute value, truncated. *)
Definition bigLowWord32 (n : Z) : Z := uint32 (Z.abs n).

(** The quotient of [big.Int.Div] for a non-zero divisor: Euclidean
    division, the remainder is never negative. *)
Definition euclidQuo (x y : Z) : Z :=
  if 0 <? y then x / y else - (x / - y).

(** [z.Div(x, y)]: panics on a zero divisor. *)
Definition bigDiv (x y : Z) : result Z :=
  if y =? 0 then Panic DivisionByZero else Ok (euclidQuo x y).

(** [x.Int64()]: the low 64 bits of the absolute value as an [int64],
    negated when [x] is negative. *)
Definition bigInt64 (x : Z) : Z :=
  let v := int64 (wrapU 64 (Z.abs x)) in
  if x <? 0 then int64 (- v) else v.

Definition bigOne : Z := 1.
Definition oneLsh256 : Z := Z.shiftl bigOne 256.

(** ** Compact difficulty codec *)

Definition CompactToBig (compact : Z) : Z :=
  let mantissa := Z.land compact 0x007fffff in
  let isNegative := negb (Z.land compact 0x00800000 =? 0) in
  let exponent := Z.shiftr compact 24 in
  let bn :=
    if exponent <=? 3
    then Z.shiftr mantissa (8 * (3 - exponent))
    else Z.shiftl mantissa (8 * (exponent - 3)) in
  if isNegative then - bn else bn.

Definition BigToCompact (n : Z) : Z :=
  if n =? 0 then 0 else
  let exponent := bigBytesLen n in
  let mantissa :=
    if exponent <=? 3
    then uint32 (Z.shiftl (bigLowWord32 n) (8 * (3 - exponent)))
    else bigLowWord32 (Z.shiftr n (8 * (exponent - 3))) in
  let '(mantissa, exponent) :=
    if negb (Z.land mantissa 0x00800000 =? 0)
    then (Z.shiftr mantissa 8, exponent + 1)
    else (mantissa, exponent) in
  let compact := Z.lor (uint32 (Z.shiftl exponent 24)) mantissa in
  if n <? 0 then Z.lor compact 0x00800000 else compact.

(** ** Work estimator *)

(** The divisor is at least 2 on the branch that divides, so [Div] cannot
    panic there and its quotient is used directly. *)
Definition CalcWork (bits : Z) : Z :=
  let difficultyNum := CompactToBig bits in
  if difficultyNum <=? 0 then 0
  else euclidQuo oneLsh256 (difficultyNum + bigOne).

(** ** [float64] *)

#[local] Set Warnings "-inexact-float".

(** [float64(z)] for an integer: rounded to the nearest binary64, ties to
    even. *)
Definition float64_of_Z (z : Z) : float :=
  SF2Prim (binary_normalize prec emax z 0 false).

(** [int64(f)] for a float: the fraction is discarded.  What Go yields when
    the value is not finite is left to the implementation; amd64's answer
    (the smallest [int64]) is taken here. *)
Definition int64_of_float (f : float) : Z :=
  match Prim2SF f with
  | S754_zero _ => 0
  | S754_finite s m e =>
      let v := if 0 <=? e then Z.shiftl (Zpos m) e else Z.shiftr (Zpos m) (- e) in
      int64 (if s then - v else v)
  | _ => - 2 ^ 63
  end.

(** ** [time] *)

(** A [time.Duration] is an [int64] count of nanoseconds. *)
Definition Duration : Type := Z.
Definition Second : Duration := 1000000000.

(** [d.Seconds()]. *)
Definition Seconds (d : Duration) : float :=
  let sec := Z.quot d Second in
  let nsec := Z.rem d Second in
  (float64_of_Z sec + float64_of_Z nsec / 1e9)%float.

(** A [time.Time] as nanoseconds since the Unix epoch. *)
Definition Time : Type := Z.

(** [t.Unix()]. *)
Definition Unix (t : Time) : Z := t / Second.

(** [t.Add(d)]. *)
Definition TimeAdd (t : Time) (d : Duration) : Time := t + d.

(** ** Headers and network parameters *)

(** The fields of [wire.BlockHeader] the program reads. *)
Record BlockHeader : Type := mkBlockHeader {
  Timestamp : Time;
  Bits : Z
}.

(** The fields of [Params] the program reads. *)
Record Params : Type := mkParams {
  PowLimit : Z;
  PowLimitBits : Z;
  TargetTimePerBlock : Duration
}.

Definition VertcoinParams : Params := {|
  PowLimit := Z.shiftl bigOne 236 - bigOne;
  PowLimitBits := 0x1e0fffff;
  TargetTimePerBlock := Second * 150
|}.

(** [s[k]] on a slice: a run-time panic outside [0 <= k < len(s)]. *)
Definition index {A : Type} (s : list A) (k : Z) : result A :=
  if (k <? 0) || (Z.of_nat (length s) <=? k) then Panic IndexOutOfRange
  else match nth_error s (Z.to_nat k) with
       | Some a => Ok a
       | None => Panic IndexOutOfRange
       end.

(** [s[1:]]: a run-time panic on the empty slice. *)
Definition sliceFrom1 {A : Type} (s : list A) : result (list A) :=
  match s with
  | [] => Panic IndexOutOfRange
  | _ :: t => Ok t
  end.

(** ** Retargeting calculator (Kimoto Gravity Well) *)

Definition minBlocks : Z := 144.
Definition maxBlocks : Z := 4032.

(** The variables of [calcDiffAdjustKGW] that live across iterations of
    its loop.  [previousDifficultyAverage] is kept although it always
    equals [difficultyAverage] between iterations. *)
Record ScanState : Type := mkScanState {
  idx : Z;
  currentBlock : BlockHeader;
  lastSolved : BlockHeader;
  blocksScanned : Z;
  actualRate : Z;
  targetRate : Z;
  difficultyAverage : Z;
  previousDifficultyAverage : Z;
  currentHeight : Z
}.

(** How one pass through the loop body ends. *)
Inductive flow : Type :=
| Break (s : ScanState)
| Continue (s : ScanState).

Section KGW.

(** [math.Pow] is Go's library function, not this program's: it is a
    parameter, and every statement below holds whatever it computes. *)
Variable Pow : float -> float -> float.

(** Lines 276-283: is the rate outside the event-horizon envelope? *)
Definition outsideEventHorizon (blocksScanned : Z) (rateAdjustmentRatio : float) : bool :=
  let eventHorizonDeviation :=
    (1 + 0.7084 * Pow (float64_of_Z blocksScanned / float64_of_Z minBlocks) (-1.228))%float in
  let eventHorizonDeviationFast := eventHorizonDeviation in
  let eventHorizonDevationSlow := (1 / eventHorizonDeviation)%float in
  PrimFloat.leb rateAdjustmentRatio eventHorizonDevationSlow
  || PrimFloat.leb eventHorizonDeviationFast rateAdjustmentRatio.

Section Scan.

Variable headers : list BlockHeader.
Variable p : Params.

(** Lines 231-240: the state on entry to the loop. *)
Definition scanInit (height : Z) : result ScanState :=
  let idx := -2 in
  do currentBlock <- index headers (Z.of_nat (length headers) + idx) ;;
  Ok {| idx := idx;
        currentBlock := currentBlock;
        lastSolved := currentBlock;
        blocksScanned := 0;
        actualRate := 0;
        targetRate := 0;
        difficultyAverage := 0;
        previousDifficultyAverage := 0;
        currentHeight := int32 (height - 1) |}.

(** Lines 249-293: the loop body for loop counter [i]. *)
Definition scanBody (i : Z) (s : ScanState) : result flow :=
  let blocksScanned := int64 (blocksScanned s + 1) in
  do difficultyAverage <-
    (if i =? 1 then Ok (CompactToBig (Bits (currentBlock s)))
     else
       let compact := CompactToBig (Bits (currentBlock s)) in
       do difference <- bigDiv (compact - previousDifficultyAverage s) i ;;
       Ok (difference + previousDifficultyAverage s)) ;;
  let previousDifficultyAverage := difficultyAverage in
  let actualRate :=
    int64 (Unix (Timestamp (lastSolved s)) - Unix (Timestamp (currentBlock s))) in
  let targetRate :=
    int64 (int64_of_float (Seconds (TargetTimePerBlock p)) * blocksScanned) in
  let actualRate := if actualRate <? 0 then 0 else actualRate in
  let rateAdjustmentRatio :=
    if negb (actualRate =? 0) && negb (targetRate =? 0)
    then (float64_of_Z targetRate / float64_of_Z actualRate)%float
    else 1%float in
  let s' := {| idx := idx s;
               currentBlock := currentBlock s;
               lastSolved := lastSolved s;
               blocksScanned := blocksScanned;
               actualRate := actualRate;
               targetRate := targetRate;
               difficultyAverage := difficultyAverage;
               previousDifficultyAverage := previousDifficultyAverage;
               currentHeight := currentHeight s |} in
  if (minBlocks <=? blocksScanned) && outsideEventHorizon blocksScanned rateAdjustmentRatio
  then Ok (Break s')
  else if currentHeight s <=? 1 then Ok (Break s')
  else
    let currentHeight := int32 (currentHeight s - 1) in
    let idx := idx s - 1 in
    do currentBlock <- index headers (Z.of_nat (length headers) + idx) ;;
    Ok (Continue {| idx := idx;
                    currentBlock := currentBlock;
                    lastSolved := lastSolved s;
                    blocksScanned := blocksScanned;
                    actualRate := actualRate;
                    targetRate := targetRate;
                    difficultyAverage := difficultyAverage;
                    previousDifficultyAverage := previousDifficultyAverage;
                    currentHeight := currentHeight |}).

(** Lines 244-294: [for i = 1; currentHeight > 0; i++].  The loop leaves
    at [i > maxBlocks] at the latest, so [bound] passes suffice from
    [i = maxBlocks + 1 - bound]; see [scanLoop_bound_enough]. *)
Fixpoint scanLoop (bound : nat) (i : Z) (s : ScanState) : result ScanState :=
  match bound with
  | O => Ok s
  | S bound' =>
      if negb (0 <? currentHeight s) then Ok s
      else if maxBlocks <? i then Ok s
      else
        do f <- scanBody i s ;;
        match f with
        | Break s' => Ok s'
        | Continue s' => scanLoop bound' (i + 1) s'
        end
  end.

(** Lines 296-301: the target before it is clamped. *)
Definition scaledTarget (s : ScanState) : result Z :=
  let newTarget := difficultyAverage s in
  if negb (actualRate s =? 0) && negb (targetRate s =? 0)
  then bigDiv (newTarget * actualRate s) (targetRate s)
  else Ok newTarget.

(** The raw new target of a call that scans. *)
Definition rawNewTarget (height : Z) : result Z :=
  do s0 <- scanInit height ;;
  do s <- scanLoop (Z.to_nat maxBlocks + 1) 1 s0 ;;
  scaledTarget s.

(** Lines 303-305. *)
Definition clampTarget (newTarget : Z) : Z :=
  if PowLimit p <? newTarget then PowLimit p else newTarget.

Definition calcDiffAdjustKGW (height : Z) : result (Z * option error) :=
  if int32 (height - 1) <? minBlocks then Ok (PowLimitBits p, None)
  else
    do newTarget <- rawNewTarget height ;;
    Ok (BigToCompact (clampTarget newTarget), None).

End Scan.

(** ** Simulation driver *)

(** One printed line of the table, with the [timeInSeconds] it was
    formatted from. *)
Record Row : Type := mkRow {
  rowHeight : Z;
  rowDiff : Z;
  rowTime : Z;
  rowMinutes : Z;
  rowSeconds : Z
}.

(** The variables of [main] that live across iterations of its loop. *)
Record SimState : Type := mkSimState {
  lastBlocks : list BlockHeader;
  bestHeader : BlockHeader;
  height : Z;
  diff : Z;
  totalSeconds : Z
}.

(** Lines 458-471 and 487: the state on entry to the loop, from the
    fetched window, the best height and the optional override ([diff64],
    already parsed). *)
Definition simInit (fetched : list BlockHeader) (bestHeight : Z)
    (override : option Z) : result SimState :=
  do bestHeader <- index fetched (Z.of_nat (length fetched) - 1) ;;
  do r <- calcDiffAdjustKGW fetched VertcoinParams (int32 bestHeight) ;;
  let '(diff, err) := r in
  match err with
  | Some _ => Panic LogFatal
  | None =>
      let diff := match override with
                  | Some diff64 => uint32 diff64
                  | None => diff
                  end in
      Ok {| lastBlocks := fetched; bestHeader := bestHeader;
            height := bestHeight; diff := diff; totalSeconds := 0 |}
  end.

(** Lines 493-494. *)
Definition timeToBlock (hashRate : Z) (diff : Z) : result Z :=
  let workForBlock := CalcWork diff in
  do q <- bigDiv workForBlock hashRate ;;
  Ok (bigInt64 q).

(** Lines 493-512: one pass of the loop.  The row is printed before the
    window is rebuilt, so it is emitted even when the rest panics. *)
Definition simStep (hashRate : Z) (st : SimState) : list Row * result SimState :=
  match timeToBlock hashRate (diff st) with
  | Panic e => ([], Panic e)
  | Ok timeInSeconds =>
      let seconds := Z.rem timeInSeconds 60 in
      let minutes := Z.quot (int64 (timeInSeconds - seconds)) 60 in
      let height := int64 (height st + 1) in
      let totalSeconds := int64 (totalSeconds st + timeInSeconds) in
      let row := {| rowHeight := height; rowDiff := diff st;
                    rowTime := timeInSeconds;
                    rowMinutes := minutes; rowSeconds := seconds |} in
      ([row],
       let newHeader :=
         {| Timestamp := TimeAdd (Timestamp (bestHeader st))
                                 (int64 (Second * timeInSeconds));
            Bits := diff st |} in
       do tl <- sliceFrom1 (lastBlocks st) ;;
       let lastBlocks := tl ++ [newHeader] in
       do bestHeader <- index lastBlocks (Z.of_nat (length lastBlocks) - 1) ;;
       do r <- calcDiffAdjustKGW lastBlocks VertcoinParams (int32 height) ;;
       let '(diff, err) := r in
       match err with
       | Some _ => Panic LogFatal
       | None =>
           Ok {| lastBlocks := lastBlocks; bestHeader := bestHeader;
                 height := height; diff := diff; totalSeconds := totalSeconds |}
       end)
  end.

(** Lines 490-513: [numBlocks] passes, collecting the rows printed. *)
Fixpoint simulate (hashRate : Z) (numBlocks : nat) (st : SimState)
  : list Row * result SimState :=
  match numBlocks with
  | O => ([], Ok st)
  | S n =>
      match simStep hashRate st with
      | (rows, Ok st') =>
          let '(rows', r) := simulate hashRate n st' in (rows ++ rows', r)
      | (rows, Panic e) => (rows, Panic e)
      end
  end.

End KGW.

(** ** Simulation driver: the whole run *)

(** Line 515: the three numbers of the summary line.  The division is an
    [int64] one; by zero it is a run-time panic. *)
Definition simSummary (startHeight : Z) (st : SimState) : result (Z * Z * Z) :=
  let blocks := int64 (height st - startHeight) in
  if blocks =? 0 then Panic DivisionByZero
  else Ok (blocks, totalSeconds st, int64 (Z.quot (totalSeconds st) blocks)).

(** Lines 487-515: the loop, [int(numBlocks)] passes of it, and the
    summary line. *)
Definition simMain (Pow : float -> float -> float) (hashRate numBlocks : Z)
    (st : SimState) : list Row * result (Z * Z * Z) :=
  let startHeight := height st in
  match simulate Pow hashRate (Z.to_nat numBlocks) st with
  | (rows, Ok st') => (rows, simSummary startHeight st')
  | (rows, Panic e) => (rows, Panic e)
  end.

(** * Auxiliary definitions *)

(** ** The state a pass of the scan leaves *)

Definition flowState (f : flow) : ScanState :=
  match f with
  | Break s => s
  | Continue s => s
  end.

(** ** The compact encoding, arithmetically *)

(** The 32-bit word with the given exponent byte, sign bit and 23-bit
    mantissa. *)
Definition compactOf (exponent : Z) (negative : bool) (mantissa : Z) : Z :=
  exponent * 2 ^ 24 + (if negative then 2 ^ 23 else 0) + mantissa.

(** The magnitude a mantissa stands for under an exponent: the [bn] of
    [CompactToBig] before the sign is applied. *)
Definition scaled (mantissa exponent : Z) : Z :=
  if exponent <=? 3
  then Z.shiftr mantissa (8 * (3 - exponent))
  else Z.shiftl mantissa (8 * (exponent - 3)).

(** The compact values [BigToCompact] produces for non-zero targets: a
    non-zero exponent, a mantissa whose two top bytes are not both empty,
    and no mantissa bits below the unit for exponents under 3. *)
Definition normalised (c : Z) : bool :=
  let mantissa := Z.land c 0x007fffff in
  let exponent := Z.shiftr c 24 in
  (1 <=? exponent) && (0x008000 <=? mantissa)
  && ((3 <=? exponent) || (mantissa mod 2 ^ (8 * (3 - exponent)) =? 0)).

(** ** Concrete inputs *)

(** Closed statements need a function in [Pow]'s place.  Go documents
    [Pow(1, y) = 1] for every [y].  The runs below that are evaluated
    through the scan are at height 145: the envelope is consulted only
    after exactly [minBlocks] samples, where the base [144 / 144] is 1, and
    the outcome is the same for every [Pow] anyway (see
    [calcDiffAdjustKGW_any_Pow]).  The other statements that mention it
    are instances of theorems that hold for every [Pow]. *)
Definition PowBaseOne : float -> float -> float := fun _ _ => 1%float.

(** A header [k] blocks after an arbitrary start, [spacing] seconds apart. *)
Definition headerAt (spacing bits k : Z) : BlockHeader :=
  {| Timestamp := Second * (1500000000 + spacing * k); Bits := bits |}.

(** [n] consecutive headers of the same difficulty. *)
Definition steadyWindow (spacing bits : Z) (n : nat) : list BlockHeader :=
  map (fun k => headerAt spacing bits (Z.of_nat k)) (seq 0 n).

(** A parameter set whose two forms of the ceiling disagree. *)
Definition mismatchedParams : Params := {|
  PowLimit := 1;
  PowLimitBits := 0x1e0fffff;
  TargetTimePerBlock := Second * 150
|}.

(** The driver's state as [main] has it on entry to its loop: 4200 fetched
    headers up to the best height and a starting difficulty.  The rows of
    a pass are printed before the window is rebuilt and the difficulty
    recomputed, so they are the same for every [Pow]. *)
Definition fetchedWindow : list BlockHeader := steadyWindow 150 0x1b0404cb 4200.

Definition stateAt (startDiff : Z) : SimState := {|
  lastBlocks := fetchedWindow;
  bestHeader := headerAt 150 0x1b0404cb 4199;
  height := 1050861;
  diff := startDiff;
  totalSeconds := 0
|}.

(** The seconds the rows of a run add up to. *)
Definition sumTimes (rows : list Row) : Z :=
  fold_right (fun row acc => rowTime row + acc) 0 rows.

(** ** What the scan has measured *)

(** Lines 264-270: the elapsed seconds from [oldest] to [newest], never
    negative. *)
Definition elapsedSince (newest oldest : BlockHeader) : Z :=
  let actualRate :=
    int64 (Unix (Timestamp newest) - Unix (Timestamp oldest)) in
  if actualRate <? 0 then 0 else actualRate.

(** The state after [k] samples of a window whose second-last header is
    [newest] and whose decoded targets lie between [lo] and [hi]. *)
Definition sampled (headers : list BlockHeader) (p : Params)
    (newest : BlockHeader) (lo hi k : Z) (s : ScanState) : Prop :=
  blocksScanned s = k
  /\ lo <= difficultyAverage s <= hi
  /\ previousDifficultyAverage s = difficultyAverage s
  /\ lastSolved s = newest
  /\ (exists oldest,
         index headers (Z.of_nat (length headers) - 1 - k) = Ok oldest
         /\ actualRate s = elapsedSince newest oldest)
  /\ targetRate s
     = int64 (int64_of_float (Seconds (TargetTimePerBlock p)) * k).

(** The state on entry to pass [i] of the scan, [ch0] being the height the
    scan started from. *)
Definition beforePass (headers : list BlockHeader) (p : Params)
    (newest : BlockHeader) (lo hi ch0 i : Z) (s : ScanState) : Prop :=
  idx s = - (i + 1)
  /\ index headers (Z.of_nat (length headers) + idx s) = Ok (currentBlock s)
  /\ lastSolved s = newest
  /\ currentHeight s = ch0 - (i - 1)
  /\ blocksScanned s = i - 1
  /\ (i = 1 \/ sampled headers p newest lo hi (i - 1) s).

(** * Properties *)

(** ** Fixed-width integers and slices *)

Lemma uint32_small (x : Z) : 0 <= x < 2 ^ 32 -> uint32 x = x.
Proof. intros H. unfold uint32, wrapU. apply Z.mod_small. exact H. Qed.

Lemma uint32_range (x : Z) : 0 <= uint32 x < 2 ^ 32.
Proof. unfold uint32, wrapU. apply Z.mod_pos_bound. reflexivity. Qed.

Lemma int32_small (x : Z) : - 2 ^ 31 <= x < 2 ^ 31 -> int32 x = x.
Proof.
  intros H. unfold int32, wrapS.
  change (2 ^ (32 - 1)) with (2 ^ 31) in *.
  rewrite Z.mod_small; lia.
Qed.

Lemma int64_small (x : Z) : - 2 ^ 63 <= x < 2 ^ 63 -> int64 x = x.
Proof.
  intros H. unfold int64, wrapS.
  change (2 ^ (64 - 1)) with (2 ^ 63) in *.
  rewrite Z.mod_small; lia.
Qed.

Lemma index_in_range {A : Type} (s : list A) (k : Z) :
  0 <= k < Z.of_nat (length s) -> exists a, index s k = Ok a.
Proof.
  intros H. unfold index.
  destruct (k <? 0) eqn:E1; [apply Z.ltb_lt in E1; lia|].
  destruct (Z.of_nat (length s) <=? k) eqn:E2; [apply Z.leb_le in E2; lia|].
  simpl. destruct (nth_error s (Z.to_nat k)) eqn:E3; [eauto|].
  apply nth_error_None in E3. lia.
Qed.

Lemma index_out_of_range {A : Type} (s : list A) (k : Z) :
  k < 0 \/ Z.of_nat (length s) <= k -> index s k = Panic IndexOutOfRange.
Proof.
  intros H. unfold index.
  destruct (k <? 0) eqn:E1; [reflexivity|].
  destruct (Z.of_nat (length s) <=? k) eqn:E2; [reflexivity|].
  apply Z.ltb_ge in E1. apply Z.leb_gt in E2. lia.
Qed.

(** An index counted from the end reads the same element whatever
    precedes it and, unless it is the last one, whatever the last one is. *)
Lemma index_from_end_app {A : Type} (pre s : list A) (k : Z) :
  1 <= k <= Z.of_nat (length s) ->
  index (pre ++ s) (Z.of_nat (length (pre ++ s)) - k)
  = index s (Z.of_nat (length s) - k).
Proof.
  intros H. unfold index. rewrite length_app, Nat2Z.inj_add.
  destruct (Z.of_nat (length pre) + Z.of_nat (length s) - k <? 0) eqn:E1;
    [apply Z.ltb_lt in E1; lia|].
  destruct (Z.of_nat (length pre) + Z.of_nat (length s)
            <=? Z.of_nat (length pre) + Z.of_nat (length s) - k) eqn:E2;
    [apply Z.leb_le in E2; lia|].
  destruct (Z.of_nat (length s) - k <? 0) eqn:E3; [apply Z.ltb_lt in E3; lia|].
  destruct (Z.of_nat (length s) <=? Z.of_nat (length s) - k) eqn:E4;
    [apply Z.leb_le in E4; lia|].
  simpl.
  replace (Z.to_nat (Z.of_nat (length pre) + Z.of_nat (length s) - k))
    with (length pre + Z.to_nat (Z.of_nat (length s) - k))%nat by lia.
  rewrite nth_error_app2 by lia.
  replace (length pre + Z.to_nat (Z.of_nat (length s) - k) - length pre)%nat
    with (Z.to_nat (Z.of_nat (length s) - k)) by lia.
  reflexivity.
Qed.

Lemma index_ignores_last {A : Type} (s : list A) (x y : A) (k : Z) :
  2 <= k ->
  index (s ++ [x]) (Z.of_nat (length (s ++ [x])) - k)
  = index (s ++ [y]) (Z.of_nat (length (s ++ [y])) - k).
Proof.
  intros H. unfold index. rewrite !length_app. simpl length.
  rewrite !Nat2Z.inj_add. change (Z.of_nat 1) with 1.
  destruct (Z.of_nat (length s) + 1 - k <? 0) eqn:E1; [reflexivity|].
  destruct (Z.of_nat (length s) + 1 <=? Z.of_nat (length s) + 1 - k) eqn:E2;
    [reflexivity|].
  simpl. apply Z.ltb_ge in E1.
  rewrite !nth_error_app1 by lia. reflexivity.
Qed.

Lemma steadyWindow_length (spacing bits : Z) (n : nat) :
  length (steadyWindow spacing bits n) = n.
Proof. unfold steadyWindow. rewrite length_map, length_seq. reflexivity. Qed.

(** ** The backward scan *)

Section ScanFacts.

Variable Pow : float -> float -> float.
Variable p : Params.

(** The loop body reads the window once, at [idx - 1] from the end. *)
Lemma scanBody_agree (h h' : list BlockHeader) (i : Z) (s : ScanState) :
  index h' (Z.of_nat (length h') + (idx s - 1))
  = index h (Z.of_nat (length h) + (idx s - 1)) ->
  scanBody Pow h' p i s = scanBody Pow h p i s.
Proof.
  intros H. unfold scanBody. cbv zeta. rewrite H. reflexivity.
Qed.

Lemma scanBody_Continue_idx (h : list BlockHeader) (i : Z) (s s' : ScanState) :
  scanBody Pow h p i s = Ok (Continue s') -> idx s' = idx s - 1.
Proof.
  unfold scanBody. cbv zeta.
  destruct (i =? 1); simpl bind.
  - destruct (_ && _); [discriminate|].
    destruct (currentHeight s <=? 1); [discriminate|].
    destruct (index h _); simpl; [|discriminate].
    intros H; injection H as <-. reflexivity.
  - destruct (bigDiv _ i); simpl bind; [|discriminate].
    destruct (_ && _); [discriminate|].
    destruct (currentHeight s <=? 1); [discriminate|].
    destruct (index h _); simpl; [|discriminate].
    intros H; injection H as <-. reflexivity.
Qed.

(** The body can only abort on its read of the window. *)
Lemma scanBody_total (h : list BlockHeader) (i : Z) (s : ScanState) :
  i <> 0 ->
  0 <= Z.of_nat (length h) + (idx s - 1) < Z.of_nat (length h) ->
  exists f, scanBody Pow h p i s = Ok f.
Proof.
  intros Hi Hk. unfold scanBody. cbv zeta.
  destruct (index_in_range h _ Hk) as [a Ha]. rewrite Ha.
  assert (Hd : forall x, bigDiv x i = Ok (euclidQuo x i)).
  { intros x. unfold bigDiv. destruct (i =? 0) eqn:E; [|reflexivity].
    apply Z.eqb_eq in E. contradiction. }
  destruct (i =? 1); [|rewrite Hd]; simpl bind;
    destruct (_ && _); eauto;
    destruct (currentHeight s <=? 1); eauto.
Qed.

Lemma scanBody_panic (h : list BlockHeader) (i : Z) (s : ScanState) (e : panic) :
  i <> 0 -> scanBody Pow h p i s = Panic e -> e = IndexOutOfRange.
Proof.
  intros Hi. unfold scanBody. cbv zeta.
  assert (Hd : forall x, bigDiv x i = Ok (euclidQuo x i)).
  { intros x. unfold bigDiv. destruct (i =? 0) eqn:E; [|reflexivity].
    apply Z.eqb_eq in E. contradiction. }
  assert (Hx : forall k, index h k = Panic e -> e = IndexOutOfRange).
  { intros k. unfold index. destruct (_ || _); [congruence|].
    destruct (nth_error h _); congruence. }
  destruct (i =? 1); [|rewrite Hd]; simpl bind;
    (destruct (_ && _); [discriminate|]);
    (destruct (currentHeight s <=? 1); [discriminate|]);
    (destruct (index h _) eqn:E; simpl; [discriminate|]);
    intros H; injection H as <-; eapply Hx; exact E.
Qed.

(** The recursion bound of [scanLoop] is never what ends the loop: from
    counter [i], [maxBlocks + 2 - i] passes already reach the [i >
    maxBlocks] exit, and more passes change nothing. *)
Lemma scanLoop_bound_enough (h : list BlockHeader) (bound extra : nat) :
  forall (i : Z) (s : ScanState),
    maxBlocks + 2 - i <= Z.of_nat bound ->
    scanLoop Pow h p (bound + extra) i s = scanLoop Pow h p bound i s.
Proof.
  induction bound as [|b IH]; intros i s Hb.
  - simpl Nat.add. destruct extra as [|x]; [reflexivity|]. simpl.
    destruct (negb (0 <? currentHeight s)); [reflexivity|].
    destruct (maxBlocks <? i) eqn:E; [reflexivity|].
    apply Z.ltb_ge in E. change (Z.of_nat 0) with 0 in Hb. lia.
  - simpl.
    destruct (negb (0 <? currentHeight s)); [reflexivity|].
    destruct (maxBlocks <? i); [reflexivity|].
    destruct (scanBody Pow h p i s) as [[s'|s']|e]; simpl; try reflexivity.
    apply IH. lia.
Qed.

(** Two windows that agree on the entries from the second-last back to
    the [(maxBlocks + 2)]-th from the end are scanned alike. *)
Section Agree.

Variables h h' : list BlockHeader.
Hypothesis agree : forall k, 2 <= k <= maxBlocks + 2 ->
  index h' (Z.of_nat (length h') - k) = index h (Z.of_nat (length h) - k).

Lemma scanLoop_agree (bound : nat) :
  forall (i : Z) (s : ScanState),
    1 <= i -> idx s = - (i + 1) ->
    scanLoop Pow h' p bound i s = scanLoop Pow h p bound i s.
Proof.
  induction bound as [|b IH]; intros i s Hi Hidx; [reflexivity|].
  simpl.
  destruct (negb (0 <? currentHeight s)); [reflexivity|].
  destruct (maxBlocks <? i) eqn:E; [reflexivity|].
  apply Z.ltb_ge in E.
  rewrite (scanBody_agree h h').
  - destruct (scanBody Pow h p i s) as [[s'|s']|e] eqn:Eb; simpl; try reflexivity.
    apply IH; [lia|].
    apply scanBody_Continue_idx in Eb. lia.
  - rewrite Hidx.
    replace (Z.of_nat (length h') + (- (i + 1) - 1))
      with (Z.of_nat (length h') - (i + 2)) by lia.
    replace (Z.of_nat (length h) + (- (i + 1) - 1))
      with (Z.of_nat (length h) - (i + 2)) by lia.
    apply agree. lia.
Qed.

Lemma scanInit_agree (height : Z) : scanInit h' height = scanInit h height.
Proof.
  unfold scanInit. cbv zeta.
  replace (Z.of_nat (length h') + -2) with (Z.of_nat (length h') - 2) by lia.
  replace (Z.of_nat (length h) + -2) with (Z.of_nat (length h) - 2) by lia.
  rewrite agree; [reflexivity|]. unfold maxBlocks. lia.
Qed.

Lemma scanInit_idx (hs : list BlockHeader) (height : Z) (s : ScanState) :
  scanInit hs height = Ok s -> idx s = -2.
Proof.
  unfold scanInit. cbv zeta. destruct (index hs _); simpl; [|discriminate].
  intros H; injection H as <-. reflexivity.
Qed.

Lemma calcDiffAdjustKGW_agree (height : Z) :
  calcDiffAdjustKGW Pow h' p height = calcDiffAdjustKGW Pow h p height.
Proof.
  unfold calcDiffAdjustKGW, rawNewTarget.
  destruct (int32 (height - 1) <? minBlocks); [reflexivity|].
  rewrite scanInit_agree.
  destruct (scanInit h height) as [s0|e] eqn:E0; cbn [bind]; [|reflexivity].
  rewrite scanLoop_agree; [reflexivity|lia|].
  apply scanInit_idx in E0. rewrite E0. reflexivity.
Qed.

End Agree.

(** With [maxBlocks + 2] headers every read of the scan is in range. *)
Lemma scanLoop_total (h : list BlockHeader) (bound : nat) :
  maxBlocks + 2 <= Z.of_nat (length h) ->
  forall (i : Z) (s : ScanState),
    1 <= i -> idx s = - (i + 1) ->
    exists s', scanLoop Pow h p bound i s = Ok s'.
Proof.
  intros Hlen. induction bound as [|b IH]; intros i s Hi Hidx; [simpl; eauto|].
  simpl.
  destruct (negb (0 <? currentHeight s)); [eauto|].
  destruct (maxBlocks <? i) eqn:E; [eauto|].
  apply Z.ltb_ge in E.
  destruct (scanBody_total h i s) as [f Hf]; [lia|rewrite Hidx; lia|].
  rewrite Hf. simpl. destruct f as [s'|s']; [eauto|].
  apply IH; [lia|]. apply scanBody_Continue_idx in Hf. lia.
Qed.

Lemma scanLoop_panic (h : list BlockHeader) (bound : nat) :
  forall (i : Z) (s : ScanState) (e : panic),
    1 <= i -> scanLoop Pow h p bound i s = Panic e -> e = IndexOutOfRange.
Proof.
  induction bound as [|b IH]; intros i s e Hi; [discriminate|].
  simpl.
  destruct (negb (0 <? currentHeight s)); [discriminate|].
  destruct (maxBlocks <? i); [discriminate|].
  destruct (scanBody Pow h p i s) as [[s'|s']|e'] eqn:Eb; simpl.
  - discriminate.
  - apply IH. lia.
  - intros H; injection H as <-. eapply scanBody_panic; [|exact Eb]. lia.
Qed.

Lemma scaledTarget_total (s : ScanState) : exists t, scaledTarget s = Ok t.
Proof.
  unfold scaledTarget.
  destruct (negb (actualRate s =? 0)); simpl; [|eauto].
  destruct (targetRate s =? 0) eqn:E; simpl; [eauto|].
  unfold bigDiv. rewrite E. eauto.
Qed.

End ScanFacts.

Lemma calcDiffAdjustKGW_error_nil
    (Pow : float -> float -> float) (headers : list BlockHeader)
    (p : Params) (height c : Z) (err : option error) :
  calcDiffAdjustKGW Pow headers p height = Ok (c, err) -> err = None.
Proof.
  unfold calcDiffAdjustKGW.
  destruct (int32 (height - 1) <? minBlocks); [congruence|].
  destruct (rawNewTarget Pow headers p height); cbn [bind]; congruence.
Qed.

Lemma calcDiffAdjustKGW_total
    (Pow : float -> float -> float) (headers : list BlockHeader)
    (p : Params) (height : Z) :
  maxBlocks + 2 <= Z.of_nat (length headers) ->
  exists c, calcDiffAdjustKGW Pow headers p height = Ok (c, None).
Proof.
  intros Hlen. unfold calcDiffAdjustKGW, rawNewTarget.
  destruct (int32 (height - 1) <? minBlocks); [eauto|].
  destruct (index_in_range headers (Z.of_nat (length headers) + -2)) as [a Ha];
    [unfold maxBlocks in Hlen; lia|].
  unfold scanInit. cbv zeta. rewrite Ha. cbn [bind].
  match goal with
  | |- context [scanLoop Pow headers p ?b 1 ?s] =>
      destruct (scanLoop_total Pow p headers b Hlen 1 s) as [s' Hs'];
        [lia|reflexivity|]
  end.
  rewrite Hs'. cbn [bind].
  destruct (scaledTarget_total s') as [t Ht]. rewrite Ht. cbn [bind]. eauto.
Qed.

(** ** The young-chain guard *)

(** C2.  When [height - 1 < 144] (in the code's [int32] arithmetic) the
    retargeting calculator returns [PowLimitBits] and a nil error, whatever
    the window holds and whatever the parameters are. *)
Theorem calcDiffAdjustKGW_young_chain
    (Pow : float -> float -> float) (headers : list BlockHeader)
    (p : Params) (height : Z) :
  int32 (height - 1) < minBlocks ->
  calcDiffAdjustKGW Pow headers p height = Ok (PowLimitBits p, None).
Proof.
  intros H. unfold calcDiffAdjustKGW.
  apply Z.ltb_lt in H. rewrite H. reflexivity.
Qed.

Lemma calcDiffAdjustKGW_young_chain_witness :
  int32 (144 - 1) < minBlocks /\
  calcDiffAdjustKGW PowBaseOne [] VertcoinParams 144
  = Ok (PowLimitBits VertcoinParams, None).
Proof.
  split; [reflexivity|].
  apply (calcDiffAdjustKGW_young_chain PowBaseOne [] VertcoinParams 144).
  reflexivity.
Defined.

(** For a height that is an [int32] other than the smallest one, the
    guard is the plain comparison. *)
Lemma young_chain_plain_comparison
    (Pow : float -> float -> float) (headers : list BlockHeader)
    (p : Params) (height : Z) :
  - 2 ^ 31 < height < 2 ^ 31 -> height - 1 < 144 ->
  calcDiffAdjustKGW Pow headers p height = Ok (PowLimitBits p, None).
Proof.
  intros Hr H. unfold calcDiffAdjustKGW.
  rewrite int32_small by lia.
  assert (E : (height - 1 <? minBlocks) = true)
    by (apply Z.ltb_lt; unfold minBlocks; lia).
  rewrite E. reflexivity.
Qed.

(** ** Which headers the scan reads *)

(** C9.  On a window of at least [maxBlocks + 2] headers the call returns
    (no read is out of range, for every height), and it reads only between
    [headers[len-2]] and [headers[len-(maxBlocks+2)]]: a window that agrees
    with it on those positions gives the same outcome. *)
Theorem calcDiffAdjustKGW_total_on_full_window
    (Pow : float -> float -> float) (headers : list BlockHeader)
    (p : Params) (height : Z) :
  maxBlocks + 2 <= Z.of_nat (length headers) ->
  (exists c, calcDiffAdjustKGW Pow headers p height = Ok (c, None)) /\
  (forall headers' : list BlockHeader,
      (forall k, 2 <= k <= maxBlocks + 2 ->
                 index headers' (Z.of_nat (length headers') - k)
                 = index headers (Z.of_nat (length headers) - k)) ->
      calcDiffAdjustKGW Pow headers' p height
      = calcDiffAdjustKGW Pow headers p height).
Proof.
  intros Hlen. split.
  - apply calcDiffAdjustKGW_total. exact Hlen.
  - intros headers' Hagree. apply calcDiffAdjustKGW_agree. exact Hagree.
Qed.

Lemma calcDiffAdjustKGW_total_on_full_window_witness :
  maxBlocks + 2 <= Z.of_nat (length (steadyWindow 150 0x1b0404cb 4034)) /\
  exists c,
    calcDiffAdjustKGW PowBaseOne (steadyWindow 150 0x1b0404cb 4034)
                      VertcoinParams 1050862 = Ok (c, None).
Proof.
  assert (H : maxBlocks + 2 <= Z.of_nat (length (steadyWindow 150 0x1b0404cb 4034))).
  { rewrite steadyWindow_length. vm_compute. discriminate. }
  split; [exact H|].
  exact (proj1 (calcDiffAdjustKGW_total_on_full_window
                  PowBaseOne (steadyWindow 150 0x1b0404cb 4034)
                  VertcoinParams 1050862 H)).
Defined.

(** C1, as the code has it.  The scan starts at the second-last header of
    the window: that header is [currentBlock] and [lastSolved] on entry,
    sample 1 seeds the average with its target and measures no elapsed
    time, and the last header of the window is never read (replacing it
    changes nothing). *)
Theorem scan_starts_at_second_last
    (Pow : float -> float -> float) (hs : list BlockHeader)
    (h lastH : BlockHeader) (p : Params) (height : Z) :
  scanInit (hs ++ [h; lastH]) height
  = Ok {| idx := -2; currentBlock := h; lastSolved := h;
          blocksScanned := 0; actualRate := 0; targetRate := 0;
          difficultyAverage := 0; previousDifficultyAverage := 0;
          currentHeight := int32 (height - 1) |}
  /\ (forall s0 f,
         scanInit (hs ++ [h; lastH]) height = Ok s0 ->
         scanBody Pow (hs ++ [h; lastH]) p 1 s0 = Ok f ->
         difficultyAverage (flowState f) = CompactToBig (Bits h)
         /\ actualRate (flowState f) = 0
         /\ lastSolved (flowState f) = h)
  /\ (forall lastH' : BlockHeader,
         calcDiffAdjustKGW Pow (hs ++ [h; lastH']) p height
         = calcDiffAdjustKGW Pow (hs ++ [h; lastH]) p height).
Proof.
  assert (Hinit : scanInit (hs ++ [h; lastH]) height
    = Ok {| idx := -2; currentBlock := h; lastSolved := h;
            blocksScanned := 0; actualRate := 0; targetRate := 0;
            difficultyAverage := 0; previousDifficultyAverage := 0;
            currentHeight := int32 (height - 1) |}).
  { unfold scanInit. cbv zeta.
    replace (Z.of_nat (length (hs ++ [h; lastH])) + -2)
      with (Z.of_nat (length (hs ++ [h; lastH])) - 2) by lia.
    rewrite (index_from_end_app hs [h; lastH] 2) by (simpl; lia).
    reflexivity. }
  split; [exact Hinit|]. split.
  - intros s0 f H0. rewrite Hinit in H0. injection H0 as <-.
    unfold scanBody. cbv zeta. cbn [Z.eqb bind currentBlock lastSolved Bits].
    rewrite Z.sub_diag.
    change (int64 0 <? 0) with false. cbv iota.
    destruct (_ && _).
    + intros H; injection H as <-. simpl. auto.
    + destruct (_ <=? 1).
      * intros H; injection H as <-. simpl. auto.
      * destruct (index _ _); cbn [bind]; [|discriminate].
        intros H; injection H as <-. simpl. auto.
  - intros lastH'.
    apply calcDiffAdjustKGW_agree. intros k Hk.
    change (hs ++ [h; lastH']) with (hs ++ [h] ++ [lastH']).
    change (hs ++ [h; lastH]) with (hs ++ [h] ++ [lastH]).
    rewrite !app_assoc. apply index_ignores_last. lia.
Qed.

Lemma scan_starts_at_second_last_witness :
  exists s0 f,
    scanInit (steadyWindow 150 0x1c0ffff0 144
              ++ [headerAt 150 0x1c0ffff0 144; headerAt 150 0x1b0404cb 145])
             145 = Ok s0
    /\ scanBody PowBaseOne
         (steadyWindow 150 0x1c0ffff0 144
          ++ [headerAt 150 0x1c0ffff0 144; headerAt 150 0x1b0404cb 145])
         VertcoinParams 1 s0 = Ok f
    /\ difficultyAverage (flowState f) = CompactToBig 0x1c0ffff0
    /\ actualRate (flowState f) = 0
    /\ lastSolved (flowState f) = headerAt 150 0x1c0ffff0 144.
Proof.
  pose proof (scan_starts_at_second_last PowBaseOne
                (steadyWindow 150 0x1c0ffff0 144)
                (headerAt 150 0x1c0ffff0 144) (headerAt 150 0x1b0404cb 145)
                VertcoinParams 145) as [Hinit [Hseed _]].
  destruct (scanBody PowBaseOne
              (steadyWindow 150 0x1c0ffff0 144
               ++ [headerAt 150 0x1c0ffff0 144; headerAt 150 0x1b0404cb 145])
              VertcoinParams 1
              {| idx := -2; currentBlock := headerAt 150 0x1c0ffff0 144;
                 lastSolved := headerAt 150 0x1c0ffff0 144;
                 blocksScanned := 0; actualRate := 0; targetRate := 0;
                 difficultyAverage := 0; previousDifficultyAverage := 0;
                 currentHeight := int32 (145 - 1) |}) as [f|e] eqn:Ef.
  - eexists. exists f. split; [exact Hinit|]. split; [exact Ef|].
    exact (Hseed _ f Hinit Ef).
  - exfalso. vm_compute in Ef. discriminate.
Defined.

(** C1 as stated fails.  On a window of 145 headers of one difficulty
    followed by a most recent header of another, priced at height 145, the
    scan starts at the second-last header; the call returns the first
    difficulty re-encoded, which the most recent header does not carry. *)
Lemma scan_first_sample_counterexample :
  minBlocks <= int32 (145 - 1) /\
  last (steadyWindow 150 0x1c0ffff0 145 ++ [headerAt 150 0x1b0404cb 145])
       (headerAt 150 0 0)
  = headerAt 150 0x1b0404cb 145 /\
  (exists s0,
      scanInit (steadyWindow 150 0x1c0ffff0 145 ++ [headerAt 150 0x1b0404cb 145])
               145 = Ok s0
      /\ currentBlock s0 = headerAt 150 0x1c0ffff0 144
      /\ currentBlock s0 <> headerAt 150 0x1b0404cb 145) /\
  calcDiffAdjustKGW PowBaseOne
    (steadyWindow 150 0x1c0ffff0 145 ++ [headerAt 150 0x1b0404cb 145])
    VertcoinParams 145
  = Ok (0x1c0fe37e, None).
Proof.
  split; [vm_compute; discriminate|]. split; [reflexivity|]. split.
  - eexists. split; [reflexivity|]. split; [reflexivity|].
    vm_compute. discriminate.
  - vm_compute. reflexivity.
Qed.

(** ** Windows that are too short *)

Section ShortWindow.

Variable Pow : float -> float -> float.
Variable p : Params.
Variable h : list BlockHeader.

(** Before [minBlocks] samples are in, with the height still above 1,
    neither exit of the body is taken: it reads on. *)
Lemma scanBody_early (i : Z) (s : ScanState) :
  1 <= i < minBlocks -> idx s = - (i + 1) -> blocksScanned s = i - 1 ->
  2 <= currentHeight s < 2 ^ 31 ->
  (Z.of_nat (length h) < i + 2 /\
   scanBody Pow h p i s = Panic IndexOutOfRange)
  \/ (i + 2 <= Z.of_nat (length h) /\
      exists s', scanBody Pow h p i s = Ok (Continue s')
                 /\ idx s' = - (i + 2)
                 /\ blocksScanned s' = i
                 /\ currentHeight s' = currentHeight s - 1).
Proof.
  intros Hi Hidx Hb Hh. unfold scanBody. cbv zeta.
  assert (Hd : forall x, bigDiv x i = Ok (euclidQuo x i)).
  { intros x. unfold bigDiv. destruct (i =? 0) eqn:E; [|reflexivity].
    apply Z.eqb_eq in E. lia. }
  assert (Hbs : int64 (blocksScanned s + 1) = i).
  { rewrite Hb. replace (i - 1 + 1) with i by lia.
    apply int64_small. unfold minBlocks in Hi. lia. }
  rewrite Hbs.
  assert (Hm : (minBlocks <=? i) = false) by (apply Z.leb_gt; lia).
  assert (Hc : (currentHeight s <=? 1) = false) by (apply Z.leb_gt; lia).
  assert (H32 : int32 (currentHeight s - 1) = currentHeight s - 1)
    by (apply int32_small; lia).
  rewrite Hm, Hc, H32, Hidx. cbn [andb].
  destruct (Z_lt_le_dec (Z.of_nat (length h)) (i + 2)) as [Hlt|Hge].
  - left. split; [exact Hlt|].
    rewrite (index_out_of_range h (Z.of_nat (length h) + (- (i + 1) - 1)))
      by lia.
    destruct (i =? 1); [|rewrite Hd]; reflexivity.
  - right. split; [exact Hge|].
    destruct (index_in_range h (Z.of_nat (length h) + (- (i + 1) - 1)))
      as [a Ha]; [lia|].
    rewrite Ha.
    destruct (i =? 1); [|rewrite Hd]; cbn [bind];
      eexists; (split; [reflexivity|]); cbn [idx blocksScanned currentHeight];
      (split; [lia|]); auto.
Qed.

(** A window of fewer than [minBlocks + 1] headers runs out before the
    scan may stop. *)
Lemma scanLoop_short (bound : nat) :
  Z.of_nat (length h) < minBlocks + 1 ->
  forall (i : Z) (s : ScanState),
    1 <= i -> i + 1 <= Z.of_nat (length h) ->
    minBlocks + 1 - i <= Z.of_nat bound ->
    idx s = - (i + 1) -> blocksScanned s = i - 1 ->
    minBlocks + 1 - i <= currentHeight s < 2 ^ 31 ->
    scanLoop Pow h p bound i s = Panic IndexOutOfRange.
Proof.
  intros Hlen. induction bound as [|b IH]; intros i s Hi Hr Hb Hidx Hbs Hh.
  - change (Z.of_nat 0) with 0 in Hb. lia.
  - cbn [scanLoop].
    assert (E1 : negb (0 <? currentHeight s) = false).
    { apply negb_false_iff, Z.ltb_lt. lia. }
    assert (E2 : (maxBlocks <? i) = false).
    { apply Z.ltb_ge. unfold maxBlocks, minBlocks in *. lia. }
    rewrite E1, E2.
    destruct (scanBody_early i s) as [[_ Hp]|[Hge [s' [Hs' [Hi' [Hb' Hh']]]]]];
      try assumption; try lia.
    + rewrite Hp. reflexivity.
    + rewrite Hs'. cbn [bind]. apply IH; lia.
Qed.

End ShortWindow.

(** ** Errors *)

(** C8, as the code has it.  The calculator has no error path: whenever it
    returns, the error is nil, and the only way it aborts is an index out of
    range.  With [height - 1 >= 144] and fewer than 145 headers it never
    returns: the run-time index-out-of-range panic is the outcome, not an
    error value and not a result from a shortened scan. *)
Theorem calcDiffAdjustKGW_short_window_panics
    (Pow : float -> float -> float) (headers : list BlockHeader)
    (p : Params) (height : Z) :
  (forall c err, calcDiffAdjustKGW Pow headers p height = Ok (c, err) ->
                 err = None)
  /\ (forall e, calcDiffAdjustKGW Pow headers p height = Panic e ->
                e = IndexOutOfRange)
  /\ (minBlocks <= int32 (height - 1) ->
      Z.of_nat (length headers) < minBlocks + 1 ->
      calcDiffAdjustKGW Pow headers p height = Panic IndexOutOfRange).
Proof.
  unfold calcDiffAdjustKGW, rawNewTarget. split; [|split].
  - intros c err.
    destruct (int32 (height - 1) <? minBlocks); [congruence|].
    destruct (scanInit headers height); cbn [bind]; [|discriminate].
    destruct (scanLoop _ _ _ _ _ _); cbn [bind]; [|discriminate].
    destruct (scaledTarget _); cbn [bind]; [congruence|discriminate].
  - intros e.
    destruct (int32 (height - 1) <? minBlocks); [discriminate|].
    unfold scanInit. cbv zeta.
    destruct (index headers _) eqn:E0; cbn [bind].
    + destruct (scanLoop _ _ _ _ _ _) eqn:E1; cbn [bind].
      * destruct (scaledTarget_total a0) as [t Ht]. rewrite Ht. discriminate.
      * intros H; injection H as <-.
        eapply scanLoop_panic; [|exact E1]. lia.
    + intros H; injection H as <-. revert E0. unfold index.
      destruct (_ || _); [congruence|].
      destruct (nth_error _ _); congruence.
  - intros Hh Hlen.
    assert (E : (int32 (height - 1) <? minBlocks) = false) by (apply Z.ltb_ge; lia).
    rewrite E.
    assert (Hr : int32 (height - 1) < 2 ^ 31).
    { unfold int32, wrapS. change (2 ^ (32 - 1)) with (2 ^ 31).
      pose proof (Z.mod_pos_bound (height - 1 + 2 ^ 31) (2 ^ 32) eq_refl). lia. }
    unfold scanInit. cbv zeta.
    destruct (Z_lt_le_dec (Z.of_nat (length headers)) 2) as [Hlt|Hge].
    + rewrite (index_out_of_range headers) by lia. reflexivity.
    + destruct (index_in_range headers (Z.of_nat (length headers) + -2))
        as [a Ha]; [lia|].
      rewrite Ha. cbn [bind].
      rewrite (scanLoop_short Pow p headers); [reflexivity|exact Hlen|..];
        cbn [idx blocksScanned currentHeight]; try lia.
      change (Z.of_nat (Z.to_nat maxBlocks + 1)) with 4033.
      unfold minBlocks. lia.
Qed.

Lemma calcDiffAdjustKGW_short_window_panics_witness :
  minBlocks <= int32 (1050862 - 1) /\
  Z.of_nat (length (steadyWindow 150 0x1b0404cb 100)) < minBlocks + 1 /\
  calcDiffAdjustKGW PowBaseOne (steadyWindow 150 0x1b0404cb 100)
                    VertcoinParams 1050862 = Panic IndexOutOfRange.
Proof.
  assert (H1 : minBlocks <= int32 (1050862 - 1)) by (vm_compute; discriminate).
  assert (H2 : Z.of_nat (length (steadyWindow 150 0x1b0404cb 100)) < minBlocks + 1)
    by (vm_compute; reflexivity).
  split; [exact H1|]. split; [exact H2|].
  exact (proj2 (proj2 (calcDiffAdjustKGW_short_window_panics
                         PowBaseOne (steadyWindow 150 0x1b0404cb 100)
                         VertcoinParams 1050862)) H1 H2).
Defined.

(** C8 as stated fails: a call that needs more history than the window
    holds does not return an error value, it aborts. *)
Lemma insufficient_history_counterexample :
  minBlocks <= int32 (1050862 - 1) /\
  Z.of_nat (length (steadyWindow 150 0x1b0404cb 100)) < minBlocks /\
  ~ (exists c err,
        calcDiffAdjustKGW PowBaseOne (steadyWindow 150 0x1b0404cb 100)
                          VertcoinParams 1050862 = Ok (c, Some err)).
Proof.
  split; [vm_compute; discriminate|]. split; [vm_compute; reflexivity|].
  intros [c [err H]]. vm_compute in H. discriminate.
Qed.

(** ** Heights at which the envelope cannot matter *)

(** When the height runs out no later than the [minBlocks]-th sample, the
    envelope is consulted, if at all, on a pass that ends at the
    [currentHeight <= 1] exit anyway: the pass is the same for every
    [Pow]. *)
Lemma scanBody_any_Pow
    (Pow Pow' : float -> float -> float) (h : list BlockHeader) (p : Params)
    (i : Z) (s : ScanState) :
  0 <= blocksScanned s -> 0 < currentHeight s ->
  blocksScanned s + currentHeight s <= minBlocks ->
  scanBody Pow h p i s = scanBody Pow' h p i s.
Proof.
  intros Hb Hh Hsum. unfold scanBody. cbv zeta.
  assert (Hbs : int64 (blocksScanned s + 1) = blocksScanned s + 1).
  { apply int64_small. unfold minBlocks in Hsum. lia. }
  rewrite Hbs.
  destruct (Z_le_gt_dec minBlocks (blocksScanned s + 1)) as [Hge|Hlt].
  - assert (Hc : (currentHeight s <=? 1) = true) by (apply Z.leb_le; lia).
    rewrite Hc.
    destruct (i =? 1); [|destruct (bigDiv _ i)]; cbn [bind];
      try reflexivity;
      destruct (_ && outsideEventHorizon Pow _ _);
      destruct (_ && outsideEventHorizon Pow' _ _); reflexivity.
  - assert (Hm : (minBlocks <=? blocksScanned s + 1) = false)
      by (apply Z.leb_gt; lia).
    rewrite Hm. reflexivity.
Qed.

Lemma scanBody_Continue_counts
    (Pow : float -> float -> float) (h : list BlockHeader) (p : Params)
    (i : Z) (s s' : ScanState) :
  scanBody Pow h p i s = Ok (Continue s') ->
  blocksScanned s' = int64 (blocksScanned s + 1)
  /\ currentHeight s' = int32 (currentHeight s - 1)
  /\ 1 < currentHeight s.
Proof.
  unfold scanBody. cbv zeta.
  destruct (i =? 1); [|destruct (bigDiv _ i)]; cbn [bind]; try discriminate;
    (destruct (_ && _); [discriminate|]);
    (destruct (Z.leb_spec (currentHeight s) 1) as [Hle|Hgt]; [discriminate|]);
    (destruct (index h _); cbn [bind]; [|discriminate]);
    intros Heq; injection Heq as <-; cbn [blocksScanned currentHeight]; auto.
Qed.

Lemma scanLoop_any_Pow
    (Pow Pow' : float -> float -> float) (h : list BlockHeader) (p : Params)
    (bound : nat) :
  forall (i : Z) (s : ScanState),
    0 <= blocksScanned s -> currentHeight s < 2 ^ 31 ->
    blocksScanned s + currentHeight s <= minBlocks ->
    scanLoop Pow h p bound i s = scanLoop Pow' h p bound i s.
Proof.
  induction bound as [|b IH]; intros i s Hb Hr Hsum; [reflexivity|].
  cbn [scanLoop].
  destruct (Z.ltb_spec 0 (currentHeight s)) as [Hh|Hh]; [|reflexivity].
  cbn [negb].
  destruct (maxBlocks <? i); [reflexivity|].
  rewrite (scanBody_any_Pow Pow Pow') by assumption.
  destruct (scanBody Pow' h p i s) as [[s'|s']|e] eqn:Eb; cbn [bind];
    try reflexivity.
  destruct (scanBody_Continue_counts Pow' h p i s s' Eb) as [H1 [H2 H3]].
  assert (Hbs : int64 (blocksScanned s + 1) = blocksScanned s + 1).
  { apply int64_small. unfold minBlocks in Hsum. lia. }
  assert (Hch : int32 (currentHeight s - 1) = currentHeight s - 1)
    by (apply int32_small; lia).
  apply IH; lia.
Qed.

(** For a height of at most [minBlocks + 1] the call is the same for every
    [Pow]. *)
Lemma calcDiffAdjustKGW_any_Pow
    (Pow Pow' : float -> float -> float) (headers : list BlockHeader)
    (p : Params) (height : Z) :
  int32 (height - 1) <= minBlocks ->
  calcDiffAdjustKGW Pow headers p height
  = calcDiffAdjustKGW Pow' headers p height
  /\ rawNewTarget Pow headers p height = rawNewTarget Pow' headers p height.
Proof.
  intros Hh.
  assert (Hraw : rawNewTarget Pow headers p height
                 = rawNewTarget Pow' headers p height).
  { unfold rawNewTarget, scanInit. cbv zeta.
    destruct (index headers _); cbn [bind]; [|reflexivity].
    rewrite (scanLoop_any_Pow Pow Pow'); [reflexivity|..];
      cbn [blocksScanned currentHeight]; unfold minBlocks in *; lia. }
  split; [|exact Hraw].
  unfold calcDiffAdjustKGW. rewrite Hraw. reflexivity.
Qed.

(** ** Bit fields of a compact value *)

Lemma land_pow2 (x n : Z) :
  0 <= n -> Z.land x (2 ^ n) = if Z.testbit x n then 2 ^ n else 0.
Proof.
  intros Hn. apply Z.bits_inj'. intros i Hi.
  rewrite Z.land_spec, Z.pow2_bits_eqb by exact Hn.
  destruct (Z.eqb_spec n i) as [->|Hne].
  - destruct (Z.testbit x i); [rewrite Z.pow2_bits_true by exact Hi|
                               rewrite Z.bits_0]; reflexivity.
  - rewrite andb_false_r.
    destruct (Z.testbit x n); [|rewrite Z.bits_0; reflexivity].
    rewrite Z.pow2_bits_false by lia. reflexivity.
Qed.

Lemma sign_bit_test (x : Z) :
  negb (Z.land x 0x00800000 =? 0) = Z.testbit x 23.
Proof.
  change 0x00800000 with (2 ^ 23). rewrite land_pow2 by lia.
  destruct (Z.testbit x 23); reflexivity.
Qed.

Lemma mantissa_mask (x : Z) : Z.land x 0x007fffff = x mod 2 ^ 23.
Proof.
  change 0x007fffff with (Z.ones 23). apply Z.land_ones. lia.
Qed.

Lemma testbit_23_arith (x : Z) :
  Z.testbit x 23 = ((x / 2 ^ 23) mod 2 =? 1).
Proof.
  pose proof (Z.testbit_spec' x 23 ltac:(lia)) as H.
  destruct (Z.testbit x 23); cbn [Z.b2z] in H; rewrite <- H; reflexivity.
Qed.

Lemma compactOf_exponent (e : Z) (s : bool) (m : Z) :
  0 <= m < 2 ^ 23 -> Z.shiftr (compactOf e s m) 24 = e.
Proof.
  intros Hm. rewrite Z.shiftr_div_pow2 by lia. unfold compactOf.
  symmetry. apply (Z.div_unique _ _ _ ((if s then 2 ^ 23 else 0) + m)).
  - left. destruct s; lia.
  - lia.
Qed.

Lemma compactOf_mantissa (e : Z) (s : bool) (m : Z) :
  0 <= m < 2 ^ 23 -> Z.land (compactOf e s m) 0x007fffff = m.
Proof.
  intros Hm. rewrite mantissa_mask. unfold compactOf.
  symmetry. apply (Z.mod_unique _ _ (2 * e + (if s then 1 else 0))).
  - left. exact Hm.
  - destruct s; lia.
Qed.

Lemma compactOf_sign (e : Z) (s : bool) (m : Z) :
  0 <= m < 2 ^ 23 -> Z.testbit (compactOf e s m) 23 = s.
Proof.
  intros Hm. rewrite testbit_23_arith. unfold compactOf.
  replace ((e * 2 ^ 24 + (if s then 2 ^ 23 else 0) + m) / 2 ^ 23)
    with (2 * e + (if s then 1 else 0)).
  - destruct s.
    + replace (2 * e + 1) with (1 + e * 2) by lia.
      rewrite Z.mod_add by lia. reflexivity.
    + replace (2 * e + 0) with (0 + e * 2) by lia.
      rewrite Z.mod_add by lia. reflexivity.
  - apply (Z.div_unique _ _ _ m).
    + left. exact Hm.
    + destruct s; lia.
Qed.

(** Decoding, on the fields. *)
Lemma CompactToBig_compactOf (e : Z) (s : bool) (m : Z) :
  0 <= m < 2 ^ 23 ->
  CompactToBig (compactOf e s m) = if s then - scaled m e else scaled m e.
Proof.
  intros Hm. unfold CompactToBig. cbv zeta.
  rewrite sign_bit_test, compactOf_sign, compactOf_mantissa,
    compactOf_exponent by exact Hm.
  reflexivity.
Qed.

(** Every non-negative word is made of its three fields. *)
Lemma compactOf_fields (c : Z) :
  c = compactOf (Z.shiftr c 24) (Z.testbit c 23) (Z.land c 0x007fffff).
Proof.
  rewrite mantissa_mask, testbit_23_arith, Z.shiftr_div_pow2 by lia.
  unfold compactOf.
  pose proof (Z.div_mod c (2 ^ 23) ltac:(lia)) as H1.
  pose proof (Z.div_mod (c / 2 ^ 23) 2 ltac:(lia)) as H2.
  pose proof (Z.mod_pos_bound (c / 2 ^ 23) 2 ltac:(lia)) as H3.
  assert (H4 : c / 2 ^ 24 = c / 2 ^ 23 / 2).
  { rewrite Z.div_div by lia. reflexivity. }
  rewrite H4.
  destruct (Z.eqb_spec ((c / 2 ^ 23) mod 2) 1) as [E|E]; lia.
Qed.

Lemma scaled_nonneg (m e : Z) : 0 <= m -> 0 <= scaled m e.
Proof.
  intros Hm. unfold scaled. destruct (e <=? 3).
  - apply Z.shiftr_nonneg. exact Hm.
  - apply Z.shiftl_nonneg. exact Hm.
Qed.

(** A word whose sign bit is set never decodes above zero. *)
Lemma CompactToBig_sign_set (c : Z) :
  Z.testbit c 23 = true -> CompactToBig c <= 0.
Proof.
  intros H. unfold CompactToBig. cbv zeta.
  rewrite sign_bit_test, H, mantissa_mask.
  pose proof (Z.mod_pos_bound c (2 ^ 23) ltac:(lia)) as Hm.
  pose proof (scaled_nonneg (c mod 2 ^ 23) (Z.shiftr c 24) ltac:(lia)) as Hs.
  unfold scaled in Hs. lia.
Qed.

Lemma scaled_mono_exponent (m e e' : Z) :
  0 <= m -> e <= e' -> scaled m e <= scaled m e'.
Proof.
  intros Hm He. unfold scaled.
  destruct (Z.leb_spec e 3) as [H1|H1]; destruct (Z.leb_spec e' 3) as [H2|H2].
  - rewrite !Z.shiftr_div_pow2 by lia.
    apply Z.div_le_compat_l; [exact Hm|]. split; [lia|].
    apply Z.pow_le_mono_r; lia.
  - rewrite Z.shiftr_div_pow2, Z.shiftl_mul_pow2 by lia.
    assert (0 < 2 ^ (8 * (3 - e))) by (apply Z.pow_pos_nonneg; lia).
    assert (0 < 2 ^ (8 * (e' - 3))) by (apply Z.pow_pos_nonneg; lia).
    assert (m / 2 ^ (8 * (3 - e)) <= m) by (apply Z.div_le_upper_bound; nia).
    nia.
  - lia.
  - rewrite !Z.shiftl_mul_pow2 by lia.
    apply Z.mul_le_mono_nonneg_l; [exact Hm|].
    apply Z.pow_le_mono_r; lia.
Qed.

Lemma lor_disjoint_add (a b : Z) : Z.land a b = 0 -> Z.lor a b = a + b.
Proof.
  intros H. rewrite <- Z.lxor_lor by exact H.
  symmetry. apply Z.add_nocarry_lxor. exact H.
Qed.

Lemma lor_high_low (x lo k : Z) :
  0 <= k -> 0 <= lo < 2 ^ k -> Z.lor (x * 2 ^ k) lo = x * 2 ^ k + lo.
Proof.
  intros Hk Hlo. apply lor_disjoint_add.
  apply Z.bits_inj'. intros i Hi.
  rewrite Z.land_spec, Z.bits_0.
  destruct (Z.ltb_spec i k) as [Hlt|Hge].
  - rewrite Z.mul_pow2_bits_low by lia. reflexivity.
  - replace lo with (lo mod 2 ^ k) by (apply Z.mod_small; exact Hlo).
    rewrite Z.mod_pow2_bits_high by lia. apply andb_false_r.
Qed.

Lemma lor_sign_bit (x : Z) :
  Z.testbit x 23 = false -> Z.lor x 0x00800000 = x + 2 ^ 23.
Proof.
  intros H. change 0x00800000 with (2 ^ 23).
  apply lor_disjoint_add. rewrite land_pow2 by lia. rewrite H. reflexivity.
Qed.

Lemma testbit_23_small (x : Z) :
  0 <= x < 2 ^ 24 -> Z.testbit x 23 = (2 ^ 23 <=? x).
Proof.
  intros Hx. rewrite testbit_23_arith.
  destruct (Z.leb_spec (2 ^ 23) x) as [H|H].
  - replace (x / 2 ^ 23) with 1; [reflexivity|].
    apply (Z.div_unique _ _ _ (x - 2 ^ 23)); lia.
  - rewrite Z.div_small by lia. reflexivity.
Qed.

(** ** [len(n.Bytes())] *)

Lemma bigBytesLen_bounds (n : Z) :
  n <> 0 ->
  1 <= bigBytesLen n /\
  2 ^ (8 * (bigBytesLen n - 1)) <= Z.abs n < 2 ^ (8 * bigBytesLen n).
Proof.
  intros Hn. unfold bigBytesLen.
  destruct (Z.eqb_spec n 0) as [E|_]; [contradiction|].
  assert (Ha : 0 < Z.abs n) by lia.
  pose proof (Z.log2_spec _ Ha) as [Hlo Hhi].
  pose proof (Z.log2_nonneg (Z.abs n)) as Hl.
  pose proof (Z.div_mod (Z.log2 (Z.abs n)) 8 ltac:(lia)) as Hdm.
  pose proof (Z.mod_pos_bound (Z.log2 (Z.abs n)) 8 ltac:(lia)) as Hmb.
  pose proof (Z.div_pos (Z.log2 (Z.abs n)) 8 Hl ltac:(lia)) as Hq.
  split; [lia|]. split.
  - eapply Z.le_trans; [|exact Hlo]. apply Z.pow_le_mono_r; lia.
  - eapply Z.lt_le_trans; [exact Hhi|]. apply Z.pow_le_mono_r; lia.
Qed.

Lemma bigBytesLen_intro (n k : Z) :
  1 <= k -> 2 ^ (8 * (k - 1)) <= Z.abs n < 2 ^ (8 * k) -> bigBytesLen n = k.
Proof.
  intros Hk [Hlo Hhi].
  assert (Hn : n <> 0).
  { intros ->. change (Z.abs 0) with 0 in Hlo.
    assert (0 < 2 ^ (8 * (k - 1))) by (apply Z.pow_pos_nonneg; lia). lia. }
  destruct (bigBytesLen_bounds n Hn) as [H1 [H2 H3]].
  destruct (Z.lt_trichotomy (bigBytesLen n) k) as [Hlt|[Heq|Hgt]];
    [exfalso|exact Heq|exfalso].
  - assert (2 ^ (8 * bigBytesLen n) <= 2 ^ (8 * (k - 1)))
      by (apply Z.pow_le_mono_r; lia). lia.
  - assert (2 ^ (8 * k) <= 2 ^ (8 * (bigBytesLen n - 1)))
      by (apply Z.pow_le_mono_r; lia). lia.
Qed.

(** ** Encoding, on the fields *)

(** What [BigToCompact] packs, in terms of the byte length [E] and the
    three-byte mantissa before normalisation.  (For a negative [n] the
    shifted magnitude can reach [2 ^ 24], which the lemma leaves out.) *)
Lemma BigToCompact_fields (n mant0 : Z) :
  n <> 0 ->
  mant0 = (if bigBytesLen n <=? 3
           then Z.abs n * 2 ^ (8 * (3 - bigBytesLen n))
           else Z.abs (n / 2 ^ (8 * (bigBytesLen n - 3)))) ->
  0 <= mant0 < 2 ^ 24 ->
  BigToCompact n
  = compactOf ((if 2 ^ 23 <=? mant0 then bigBytesLen n + 1 else bigBytesLen n)
               mod 2 ^ 8)
              (n <? 0)
              (if 2 ^ 23 <=? mant0 then mant0 / 2 ^ 8 else mant0).
Proof.
  intros Hn Hdef Hr.
  destruct (bigBytesLen_bounds n Hn) as [HE [Hlo Hhi]].
  unfold BigToCompact.
  destruct (Z.eqb_spec n 0) as [E0|_]; [contradiction|].
  set (E := bigBytesLen n) in *.
  assert (Hm : (if E <=? 3
                then uint32 (Z.shiftl (bigLowWord32 n) (8 * (3 - E)))
                else bigLowWord32 (Z.shiftr n (8 * (E - 3)))) = mant0).
  { rewrite Hdef. destruct (Z.leb_spec E 3) as [H3|H3].
    - assert (Hsmall : Z.abs n < 2 ^ 32).
      { eapply Z.lt_le_trans; [exact Hhi|].
        apply (Z.pow_le_mono_r 2 (8 * E) 32); lia. }
      unfold bigLowWord32. rewrite (uint32_small (Z.abs n)) by lia.
      rewrite Z.shiftl_mul_pow2 by lia.
      apply uint32_small. rewrite <- Hdef. lia.
    - unfold bigLowWord32. rewrite Z.shiftr_div_pow2 by lia.
      apply uint32_small. rewrite <- Hdef. lia. }
  rewrite Hm. rewrite sign_bit_test, testbit_23_small by exact Hr.
  assert (Hpack : forall E' m', 0 <= m' < 2 ^ 23 ->
            (if n <? 0
             then Z.lor (Z.lor (uint32 (Z.shiftl E' 24)) m') 0x00800000
             else Z.lor (uint32 (Z.shiftl E' 24)) m')
            = compactOf (E' mod 2 ^ 8) (n <? 0) m').
  { intros E' m' Hm'.
    assert (Hu : uint32 (Z.shiftl E' 24) = (E' mod 2 ^ 8) * 2 ^ 24).
    { unfold uint32, wrapU. rewrite Z.shiftl_mul_pow2 by lia.
      change (2 ^ 32) with (2 ^ 8 * 2 ^ 24).
      apply Z.mul_mod_distr_r; lia. }
    rewrite Hu, lor_high_low by lia.
    unfold compactOf. destruct (n <? 0); [|lia].
    rewrite lor_sign_bit; [lia|].
    replace (E' mod 2 ^ 8 * 2 ^ 24 + m')
      with (compactOf (E' mod 2 ^ 8) false m') by (unfold compactOf; lia).
    apply compactOf_sign. exact Hm'. }
  destruct (Z.leb_spec (2 ^ 23) mant0) as [Hb|Hb].
  - rewrite Z.shiftr_div_pow2 by lia. apply Hpack.
    split; [apply Z.div_pos; lia|].
    apply Z.div_lt_upper_bound; lia.
  - apply Hpack. lia.
Qed.

(** ** Decoding an encoded target never raises it *)

Lemma mant0_range_pos (n : Z) :
  0 < n ->
  2 ^ 16 <= (if bigBytesLen n <=? 3
             then Z.abs n * 2 ^ (8 * (3 - bigBytesLen n))
             else Z.abs (n / 2 ^ (8 * (bigBytesLen n - 3)))) < 2 ^ 24.
Proof.
  intros Hn.
  destruct (bigBytesLen_bounds n ltac:(lia)) as [HE [Hlo Hhi]].
  set (E := bigBytesLen n) in *.
  rewrite (Z.abs_eq n) in * by lia.
  destruct (Z.leb_spec E 3) as [H3|H3].
  - assert (H16 : 2 ^ 16 = 2 ^ (8 * (E - 1)) * 2 ^ (8 * (3 - E))).
    { rewrite <- Z.pow_add_r by lia. f_equal. lia. }
    assert (H24 : 2 ^ 24 = 2 ^ (8 * E) * 2 ^ (8 * (3 - E))).
    { rewrite <- Z.pow_add_r by lia. f_equal. lia. }
    assert (Hp : 0 < 2 ^ (8 * (3 - E))) by (apply Z.pow_pos_nonneg; lia).
    rewrite H16, H24. split.
    + apply Z.mul_le_mono_nonneg_r; lia.
    + apply Z.mul_lt_mono_pos_r; lia.
  - assert (Hp : 0 < 2 ^ (8 * (E - 3))) by (apply Z.pow_pos_nonneg; lia).
    assert (H16 : 2 ^ (8 * (E - 1)) = 2 ^ 16 * 2 ^ (8 * (E - 3))).
    { rewrite <- Z.pow_add_r by lia. f_equal. lia. }
    assert (H24 : 2 ^ (8 * E) = 2 ^ 24 * 2 ^ (8 * (E - 3))).
    { rewrite <- Z.pow_add_r by lia. f_equal. lia. }
    rewrite Z.abs_eq by (apply Z.div_pos; lia). split.
    + apply Z.div_le_lower_bound; lia.
    + apply Z.div_lt_upper_bound; lia.
Qed.

Lemma scaled_mant0_le (n : Z) :
  0 < n ->
  scaled (if bigBytesLen n <=? 3
          then Z.abs n * 2 ^ (8 * (3 - bigBytesLen n))
          else Z.abs (n / 2 ^ (8 * (bigBytesLen n - 3))))
         (bigBytesLen n) <= n.
Proof.
  intros Hn.
  destruct (bigBytesLen_bounds n ltac:(lia)) as [HE _].
  set (E := bigBytesLen n) in *. unfold scaled.
  rewrite (Z.abs_eq n) by lia.
  destruct (Z.leb_spec E 3) as [H3|H3].
  - rewrite Z.shiftr_div_pow2 by lia.
    assert (Hp : 0 < 2 ^ (8 * (3 - E))) by (apply Z.pow_pos_nonneg; lia).
    rewrite Z.div_mul by lia. lia.
  - rewrite Z.shiftl_mul_pow2 by lia.
    assert (Hp : 0 < 2 ^ (8 * (E - 3))) by (apply Z.pow_pos_nonneg; lia).
    rewrite Z.abs_eq by (apply Z.div_pos; lia).
    rewrite Z.mul_comm. apply Z.mul_div_le. exact Hp.
Qed.

(** Dropping the low byte of the mantissa and raising the exponent does
    not raise the magnitude. *)
Lemma scaled_normalise_le (m e : Z) :
  0 <= m -> scaled (m / 2 ^ 8) (e + 1) <= scaled m e.
Proof.
  intros Hm. unfold scaled.
  destruct (Z.leb_spec (e + 1) 3) as [H1|H1];
    destruct (Z.leb_spec e 3) as [H2|H2]; try lia.
  - rewrite !Z.shiftr_div_pow2 by lia.
    rewrite Z.div_div by (try apply Z.pow_pos_nonneg; lia).
    rewrite <- Z.pow_add_r by lia.
    replace (8 + 8 * (3 - (e + 1))) with (8 * (3 - e)) by lia. lia.
  - assert (e = 3) as -> by lia.
    change (8 * (3 + 1 - 3)) with 8. change (8 * (3 - 3)) with 0.
    rewrite Z.shiftl_mul_pow2, Z.shiftr_0_r by lia.
    rewrite Z.mul_comm. apply Z.mul_div_le. lia.
  - rewrite !Z.shiftl_mul_pow2 by lia.
    replace (8 * (e + 1 - 3)) with (8 + 8 * (e - 3)) by lia.
    rewrite Z.pow_add_r by lia.
    assert (Hp : 0 < 2 ^ (8 * (e - 3))) by (apply Z.pow_pos_nonneg; lia).
    pose proof (Z.mul_div_le m (2 ^ 8) ltac:(lia)) as Hd.
    nia.
Qed.

Lemma CompactToBig_BigToCompact_le (n : Z) :
  CompactToBig (BigToCompact n) <= Z.max n 0.
Proof.
  destruct (Z.lt_trichotomy n 0) as [Hneg|[->|Hpos]].
  - (* negative: the sign bit is set *)
    assert (H : CompactToBig (BigToCompact n) <= 0); [|lia].
    unfold BigToCompact.
    destruct (Z.eqb_spec n 0) as [E0|_]; [lia|].
    destruct (negb (Z.land _ 0x00800000 =? 0));
      (destruct (Z.ltb_spec n 0) as [_|Hge]; [|lia]);
      apply CompactToBig_sign_set;
      rewrite Z.lor_spec; change 0x00800000 with (2 ^ 23);
      rewrite Z.pow2_bits_true by lia; apply orb_true_r.
  - reflexivity.
  - pose proof (mant0_range_pos n Hpos) as Hr.
    pose proof (scaled_mant0_le n Hpos) as Hs.
    destruct (bigBytesLen_bounds n ltac:(lia)) as [HE _].
    remember (if bigBytesLen n <=? 3
              then Z.abs n * 2 ^ (8 * (3 - bigBytesLen n))
              else Z.abs (n / 2 ^ (8 * (bigBytesLen n - 3)))) as mant0 eqn:Hdef.
    rewrite (BigToCompact_fields n mant0) by (try exact Hdef; lia).
    destruct (Z.ltb_spec n 0) as [Hlt|_]; [lia|].
    pose proof (Z.mod_pos_bound (bigBytesLen n) (2 ^ 8) ltac:(lia)) as Hb1.
    pose proof (Z.mod_pos_bound (bigBytesLen n + 1) (2 ^ 8) ltac:(lia)) as Hb2.
    pose proof (Z.mod_le (bigBytesLen n) (2 ^ 8) ltac:(lia) ltac:(lia)) as Hl1.
    pose proof (Z.mod_le (bigBytesLen n + 1) (2 ^ 8) ltac:(lia) ltac:(lia)) as Hl2.
    destruct (Z.leb_spec (2 ^ 23) mant0) as [Hb|Hb].
    + assert (Hm' : 0 <= mant0 / 2 ^ 8 < 2 ^ 23).
      { split; [apply Z.div_pos; lia|apply Z.div_lt_upper_bound; lia]. }
      rewrite CompactToBig_compactOf by exact Hm'.
      pose proof (scaled_mono_exponent (mant0 / 2 ^ 8)
                    ((bigBytesLen n + 1) mod 2 ^ 8) (bigBytesLen n + 1)
                    ltac:(lia) Hl2) as H1.
      pose proof (scaled_normalise_le mant0 (bigBytesLen n) ltac:(lia)) as H2.
      lia.
    + rewrite CompactToBig_compactOf by lia.
      pose proof (scaled_mono_exponent mant0
                    (bigBytesLen n mod 2 ^ 8) (bigBytesLen n)
                    ltac:(lia) Hl1) as H1.
      lia.
Qed.

(** ** The clamp to the ceiling *)

Lemma clampTarget_le (p : Params) (t : Z) : clampTarget p t <= PowLimit p.
Proof.
  unfold clampTarget. destruct (Z.ltb_spec (PowLimit p) t); lia.
Qed.

Lemma clampTarget_above (p : Params) (t : Z) :
  PowLimit p < t -> clampTarget p t = PowLimit p.
Proof.
  intros H. unfold clampTarget. apply Z.ltb_lt in H. rewrite H. reflexivity.
Qed.

(** C4 as stated fails: below height 145 the calculator hands back
    [PowLimitBits] as it is, and nothing ties that field to [PowLimit]. *)
Lemma below_ceiling_counterexample :
  0 < PowLimit mismatchedParams /\
  calcDiffAdjustKGW PowBaseOne [] mismatchedParams 1 = Ok (0x1e0fffff, None) /\
  ~ (CompactToBig 0x1e0fffff <= PowLimit mismatchedParams).
Proof.
  split; [reflexivity|]. split; [reflexivity|].
  vm_compute. intros H. apply H. reflexivity.
Qed.

(** C4, as the code has it.  With a positive [PowLimit], whatever the
    calculator returns decodes to at most [PowLimit], through the lossy
    re-encoding too, provided the call scans ([height - 1 >= 144]) or the
    parameters' [PowLimitBits] itself decodes to at most [PowLimit]. *)
Theorem calcDiffAdjustKGW_below_ceiling
    (Pow : float -> float -> float) (headers : list BlockHeader)
    (p : Params) (height : Z) (c : Z) (err : option error) :
  0 < PowLimit p ->
  minBlocks <= int32 (height - 1)
  \/ CompactToBig (PowLimitBits p) <= PowLimit p ->
  calcDiffAdjustKGW Pow headers p height = Ok (c, err) ->
  CompactToBig c <= PowLimit p.
Proof.
  intros Hpos Hor. unfold calcDiffAdjustKGW.
  destruct (Z.ltb_spec (int32 (height - 1)) minBlocks) as [Hy|Hs].
  - intros H; injection H as <- _. destruct Hor as [Hc|Hc]; [lia|exact Hc].
  - destruct (rawNewTarget Pow headers p height) as [t|e]; cbn [bind];
      [|discriminate].
    intros H; injection H as <- _.
    pose proof (CompactToBig_BigToCompact_le (clampTarget p t)) as H1.
    pose proof (clampTarget_le p t) as H2. lia.
Qed.

Lemma calcDiffAdjustKGW_below_ceiling_witness :
  0 < PowLimit VertcoinParams /\
  calcDiffAdjustKGW PowBaseOne (steadyWindow 300 0x1e0fffff 146) VertcoinParams 145
  = Ok (0x1e0fffff, None) /\
  CompactToBig 0x1e0fffff <= PowLimit VertcoinParams.
Proof.
  assert (H1 : 0 < PowLimit VertcoinParams) by reflexivity.
  assert (H2 : calcDiffAdjustKGW PowBaseOne (steadyWindow 300 0x1e0fffff 146)
                                 VertcoinParams 145 = Ok (0x1e0fffff, None))
    by (vm_compute; reflexivity).
  split; [exact H1|]. split; [exact H2|].
  apply (calcDiffAdjustKGW_below_ceiling PowBaseOne
           (steadyWindow 300 0x1e0fffff 146) VertcoinParams 145
           0x1e0fffff None H1).
  - left. vm_compute. discriminate.
  - exact H2.
Defined.

(** C3 as stated fails: blocks twice as slow as the target at the
    ceiling difficulty give a raw target above the ceiling, and the result
    decodes to [2^236 - 2^216], not to the ceiling [2^236 - 1]. *)
Lemma clamp_decodes_to_ceiling_counterexample :
  PowLimit VertcoinParams = 2 ^ 236 - 1 /\
  (exists t,
      rawNewTarget PowBaseOne (steadyWindow 300 0x1e0fffff 146) VertcoinParams 145
      = Ok t /\ PowLimit VertcoinParams < t) /\
  calcDiffAdjustKGW PowBaseOne (steadyWindow 300 0x1e0fffff 146) VertcoinParams 145
  = Ok (0x1e0fffff, None) /\
  CompactToBig 0x1e0fffff = 2 ^ 236 - 2 ^ 216 /\
  CompactToBig 0x1e0fffff <> PowLimit VertcoinParams.
Proof.
  split; [reflexivity|]. split.
  - eexists. split; [vm_compute; reflexivity|]. vm_compute. reflexivity.
  - split; [vm_compute; reflexivity|]. split; [reflexivity|].
    vm_compute. discriminate.
Qed.

(** C3, as the code has it.  A raw target above the ceiling is replaced by
    [PowLimit] and the call returns [PowLimit] re-encoded; for the
    reference parameters that is [0x1e0fffff], which decodes to
    [2^236 - 2^216], the ceiling cut to the mantissa's precision. *)
Theorem calcDiffAdjustKGW_clamped
    (Pow : float -> float -> float) (headers : list BlockHeader)
    (p : Params) (height : Z) (t : Z) :
  minBlocks <= int32 (height - 1) ->
  rawNewTarget Pow headers p height = Ok t ->
  PowLimit p < t ->
  calcDiffAdjustKGW Pow headers p height = Ok (BigToCompact (PowLimit p), None)
  /\ CompactToBig (BigToCompact (PowLimit p)) <= Z.max (PowLimit p) 0
  /\ (p = VertcoinParams ->
      BigToCompact (PowLimit p) = 0x1e0fffff
      /\ CompactToBig (BigToCompact (PowLimit p)) = 2 ^ 236 - 2 ^ 216).
Proof.
  intros Hh Hraw Habove. split; [|split].
  - unfold calcDiffAdjustKGW.
    destruct (Z.ltb_spec (int32 (height - 1)) minBlocks) as [Hy|_]; [lia|].
    rewrite Hraw. cbn [bind]. rewrite clampTarget_above by exact Habove.
    reflexivity.
  - apply CompactToBig_BigToCompact_le.
  - intros ->. split; reflexivity.
Qed.

Lemma calcDiffAdjustKGW_clamped_witness :
  minBlocks <= int32 (145 - 1) /\
  PowLimit VertcoinParams
  < 219321952524987518638514216814053825976893273976766696662346473021986133 /\
  calcDiffAdjustKGW PowBaseOne (steadyWindow 300 0x1e0fffff 146) VertcoinParams 145
  = Ok (BigToCompact (PowLimit VertcoinParams), None).
Proof.
  assert (H1 : minBlocks <= int32 (145 - 1)) by (vm_compute; discriminate).
  assert (H2 : rawNewTarget PowBaseOne (steadyWindow 300 0x1e0fffff 146)
                            VertcoinParams 145
               = Ok 219321952524987518638514216814053825976893273976766696662346473021986133)
    by (vm_compute; reflexivity).
  assert (H3 : PowLimit VertcoinParams
               < 219321952524987518638514216814053825976893273976766696662346473021986133)
    by reflexivity.
  split; [exact H1|]. split; [exact H3|].
  exact (proj1 (calcDiffAdjustKGW_clamped PowBaseOne
                  (steadyWindow 300 0x1e0fffff 146) VertcoinParams 145 _
                  H1 H2 H3)).
Defined.

(** ** Work *)

Lemma CalcWork_positive_target (c : Z) :
  0 < CompactToBig c -> CalcWork c = 2 ^ 256 / (CompactToBig c + 1).
Proof.
  intros H. unfold CalcWork, euclidQuo, bigOne. cbv zeta.
  destruct (Z.leb_spec (CompactToBig c) 0) as [H0|_]; [lia|].
  destruct (Z.ltb_spec 0 (CompactToBig c + 1)) as [_|H1]; [|lia].
  reflexivity.
Qed.

Lemma CalcWork_nonneg (c : Z) : 0 <= CalcWork c.
Proof.
  destruct (Z.lt_ge_cases 0 (CompactToBig c)) as [H|H].
  - rewrite CalcWork_positive_target by exact H.
    apply Z.div_pos; lia.
  - unfold CalcWork. cbv zeta.
    destruct (Z.leb_spec (CompactToBig c) 0); lia.
Qed.

Lemma CalcWork_bound (c : Z) : CalcWork c < 2 ^ 256.
Proof.
  destruct (Z.lt_ge_cases 0 (CompactToBig c)) as [H|H].
  - rewrite CalcWork_positive_target by exact H.
    apply Z.div_lt_upper_bound; lia.
  - unfold CalcWork. cbv zeta.
    destruct (Z.leb_spec (CompactToBig c) 0); lia.
Qed.

(** Quotients of one numerator by two divisors differ once the divisors
    are far enough apart. *)
Lemma div_strictly_antitone (N a b : Z) :
  0 < a < b -> 0 <= N -> a * b <= N * (b - a) -> N / b < N / a.
Proof.
  intros Hab HN Hgap.
  pose proof (Z.div_mod N a ltac:(lia)) as Ha.
  pose proof (Z.mod_pos_bound N a ltac:(lia)) as Hra.
  pose proof (Z.div_mod N b ltac:(lia)) as Hb.
  pose proof (Z.mod_pos_bound N b ltac:(lia)) as Hrb.
  pose proof (Z.div_pos N a HN ltac:(lia)) as Hqa.
  pose proof (Z.div_pos N b HN ltac:(lia)) as Hqb.
  destruct (Z.lt_ge_cases (N / b) (N / a)) as [H|H]; [exact H|exfalso].
  set (q := N / a) in *. set (q' := N / b) in *.
  set (r := N mod a) in *. set (r' := N mod b) in *.
  assert (H1 : (b - a) * q < a) by nia.
  assert (H2 : a * b < a * ((q + 1) * (b - a))) by nia.
  assert (H3 : b < (q + 1) * (b - a)) by nia.
  nia.
Qed.

(** C6 as stated fails: two positive targets, the second larger, with the
    same work. *)
Lemma CalcWork_strict_counterexample :
  0 < CompactToBig 0x20600000 < CompactToBig 0x20700000 /\
  CompactToBig 0x20700000 < 2 ^ 256 /\
  CalcWork 0x20600000 = 2 /\ CalcWork 0x20700000 = 2 /\
  ~ (CalcWork 0x20700000 < CalcWork 0x20600000).
Proof.
  repeat split; try reflexivity. vm_compute. discriminate.
Qed.

(** C6, as the code has it.  The work never increases with the decoded
    target, and it strictly decreases when the two targets are far enough
    apart for the floor not to hide the difference; a compact value whose
    target is not positive has work 0. *)
Theorem CalcWork_antitone (c1 c2 : Z) :
  (0 < CompactToBig c1 < CompactToBig c2 ->
   CalcWork c2 <= CalcWork c1
   /\ ((CompactToBig c1 + 1) * (CompactToBig c2 + 1)
       <= oneLsh256 * (CompactToBig c2 - CompactToBig c1) ->
       CalcWork c2 < CalcWork c1))
  /\ (CompactToBig c1 <= 0 -> CalcWork c1 = 0).
Proof.
  split.
  - intros [H1 H2].
    rewrite !CalcWork_positive_target by lia. split.
    + apply Z.div_le_compat_l; lia.
    + change oneLsh256 with (2 ^ 256). intros Hgap.
      apply div_strictly_antitone; lia.
  - intros H. unfold CalcWork. cbv zeta.
    apply Z.leb_le in H. rewrite H. reflexivity.
Qed.

Lemma CalcWork_antitone_witness :
  0 < CompactToBig 0x1b0404cb < CompactToBig 0x1c0ffff0 /\
  CalcWork 0x1c0ffff0 < CalcWork 0x1b0404cb /\
  CompactToBig 0x00800000 <= 0 /\ CalcWork 0x00800000 = 0.
Proof.
  assert (H1 : 0 < CompactToBig 0x1b0404cb < CompactToBig 0x1c0ffff0)
    by (split; reflexivity).
  assert (H2 : CompactToBig 0x00800000 <= 0) by (vm_compute; discriminate).
  split; [exact H1|]. split; [|split; [exact H2|]].
  - apply (proj2 (proj1 (CalcWork_antitone 0x1b0404cb 0x1c0ffff0) H1)).
    vm_compute. discriminate.
  - exact (proj2 (CalcWork_antitone 0x00800000 0) H2).
Defined.

(** ** The simulation driver *)

Lemma timeToBlock_nonzero (hashRate d : Z) :
  hashRate <> 0 ->
  timeToBlock hashRate d = Ok (bigInt64 (euclidQuo (CalcWork d) hashRate)).
Proof.
  intros H. unfold timeToBlock, bigDiv. cbv zeta.
  destruct (Z.eqb_spec hashRate 0) as [E|_]; [contradiction|]. reflexivity.
Qed.

Lemma timeToBlock_zero (d : Z) : timeToBlock 0 d = Panic DivisionByZero.
Proof. reflexivity. Qed.

Lemma bigInt64_small (q : Z) : 0 <= q < 2 ^ 63 -> bigInt64 q = q.
Proof.
  intros H. unfold bigInt64. cbv zeta.
  destruct (Z.ltb_spec q 0) as [Hlt|_]; [lia|].
  rewrite Z.abs_eq by lia. unfold wrapU.
  rewrite Z.mod_small by lia. apply int64_small. lia.
Qed.

(** With a positive hash rate and a quotient that fits an [int64], the
    time is the truncating quotient of the work by the hash rate. *)
Lemma timeToBlock_exact (hashRate d : Z) :
  0 < hashRate -> Z.quot (CalcWork d) hashRate < 2 ^ 63 ->
  timeToBlock hashRate d = Ok (Z.quot (CalcWork d) hashRate).
Proof.
  intros Hh Hq. rewrite timeToBlock_nonzero by lia.
  pose proof (CalcWork_nonneg d) as Hw.
  unfold euclidQuo. destruct (Z.ltb_spec 0 hashRate) as [_|H]; [|lia].
  rewrite Z.quot_div_nonneg in * by lia.
  rewrite bigInt64_small; [reflexivity|].
  split; [apply Z.div_pos; lia|exact Hq].
Qed.

Section Driver.

Variable Pow : float -> float -> float.
Variable hashRate : Z.

(** The rows a pass prints: none when the division panics, else one,
    carrying the current difficulty and the time computed from it. *)
Lemma simStep_rows (st : SimState) (row : Row) :
  In row (fst (simStep Pow hashRate st)) ->
  rowDiff row = diff st /\ timeToBlock hashRate (diff st) = Ok (rowTime row).
Proof.
  unfold simStep. destruct (timeToBlock hashRate (diff st)) as [t|e].
  - cbn [fst In]. intros [<-|[]]. cbn [rowDiff rowTime]. auto.
  - cbn [fst In]. intros [].
Qed.

Lemma simStep_prints (st : SimState) (t : Z) :
  timeToBlock hashRate (diff st) = Ok t ->
  exists row, fst (simStep Pow hashRate st) = [row]
              /\ rowDiff row = diff st /\ rowTime row = t
              /\ rowHeight row = int64 (height st + 1).
Proof.
  intros H. unfold simStep. rewrite H. cbn [fst].
  eexists. split; [reflexivity|]. cbn [rowDiff rowTime rowHeight]. auto.
Qed.

Lemma simulate_S (n : nat) (st : SimState) :
  exists rest, fst (simulate Pow hashRate (S n) st)
               = fst (simStep Pow hashRate st) ++ rest.
Proof.
  cbn [simulate]. destruct (simStep Pow hashRate st) as [rows [st'|e]].
  - destruct (simulate Pow hashRate n st') as [rows' r]. cbn [fst]. eauto.
  - cbn [fst]. exists []. rewrite app_nil_r. reflexivity.
Qed.

Lemma simulate_rows (n : nat) :
  forall (st : SimState) (row : Row),
    In row (fst (simulate Pow hashRate n st)) ->
    timeToBlock hashRate (rowDiff row) = Ok (rowTime row).
Proof.
  induction n as [|n IH]; intros st row; [intros []|].
  cbn [simulate].
  pose proof (simStep_rows st row) as Hstep.
  destruct (simStep Pow hashRate st) as [rows [st'|e]].
  - specialize (IH st' row).
    destruct (simulate Pow hashRate n st') as [rows' r]. cbn [fst] in *.
    intros Hin. apply in_app_or in Hin. destruct Hin as [Hin|Hin].
    + destruct (Hstep Hin) as [-> Ht]. exact Ht.
    + apply IH. exact Hin.
  - cbn [fst] in *. intros Hin. destruct (Hstep Hin) as [-> Ht]. exact Ht.
Qed.

End Driver.

(** With a full window a pass of the driver can only fail at the
    division. *)
Lemma simStep_total (Pow : float -> float -> float) (hashRate : Z) (st : SimState) :
  hashRate <> 0 ->
  maxBlocks + 2 <= Z.of_nat (length (lastBlocks st)) ->
  exists st', snd (simStep Pow hashRate st) = Ok st'
              /\ length (lastBlocks st') = length (lastBlocks st).
Proof.
  intros Hh Hlen. unfold simStep.
  rewrite timeToBlock_nonzero by exact Hh. cbn [snd].
  destruct (lastBlocks st) as [|h0 tl] eqn:El.
  { unfold maxBlocks in Hlen. simpl in Hlen. lia. }
  cbn [sliceFrom1 bind].
  set (newHeader := {| Timestamp := _; Bits := diff st |}).
  assert (Hl : length (tl ++ [newHeader]) = length (h0 :: tl)).
  { rewrite length_app. simpl. lia. }
  destruct (index_in_range (tl ++ [newHeader])
              (Z.of_nat (length (tl ++ [newHeader])) - 1)) as [b Hb].
  { rewrite Hl. unfold maxBlocks in Hlen. lia. }
  rewrite Hb. cbn [bind].
  destruct (calcDiffAdjustKGW_total Pow (tl ++ [newHeader]) VertcoinParams
              (int32 (int64 (height st + 1)))) as [c Hc].
  { rewrite Hl. exact Hlen. }
  rewrite Hc. cbn [bind]. eexists. split; [reflexivity|]. exact Hl.
Qed.

Lemma stateAt_window (d : Z) :
  maxBlocks + 2 <= Z.of_nat (length (lastBlocks (stateAt d))).
Proof.
  cbn [stateAt lastBlocks]. unfold fetchedWindow.
  rewrite steadyWindow_length. vm_compute. discriminate.
Qed.

(** C7 as stated fails: at the hardest one-byte target and 1 GH/s the
    quotient needs 226 bits, and the row carries its low 64 bits only. *)
Lemma row_time_counterexample :
  0 < 10 ^ 9 /\
  exists row,
    In row (fst (simulate PowBaseOne (10 ^ 9) 1 (stateAt 0x01010000)))
    /\ rowDiff row = 0x01010000
    /\ rowTime row = 318325279877277044
    /\ Z.quot (CalcWork (rowDiff row)) (10 ^ 9)
       = 57896044618658097711785492504343953926634992332820282019728792003956
    /\ rowTime row <> Z.quot (CalcWork (rowDiff row)) (10 ^ 9).
Proof.
  split; [reflexivity|].
  destruct (simStep_prints PowBaseOne (10 ^ 9) (stateAt 0x01010000)
              318325279877277044) as [row [Hrow [Hd [Ht _]]]];
    [vm_compute; reflexivity|].
  exists row.
  destruct (simulate_S PowBaseOne (10 ^ 9) 0 (stateAt 0x01010000)) as [rest Hs].
  split; [rewrite Hs, Hrow; left; reflexivity|].
  cbn [stateAt diff] in Hd. rewrite Hd, Ht.
  split; [reflexivity|]. split; [reflexivity|].
  split; [vm_compute; reflexivity|]. vm_compute. discriminate.
Qed.

(** C7, as the code has it.  For a positive hash rate, every row the
    driver prints whose quotient fits a signed 64-bit integer carries
    exactly the work of the row's difficulty divided by the hash rate,
    truncated. *)
Theorem simulate_row_time
    (Pow : float -> float -> float) (hashRate : Z) (numBlocks : nat)
    (st : SimState) (row : Row) :
  0 < hashRate ->
  In row (fst (simulate Pow hashRate numBlocks st)) ->
  Z.quot (CalcWork (rowDiff row)) hashRate < 2 ^ 63 ->
  rowTime row = Z.quot (CalcWork (rowDiff row)) hashRate.
Proof.
  intros Hh Hin Hq.
  apply simulate_rows in Hin.
  rewrite (timeToBlock_exact hashRate (rowDiff row) Hh Hq) in Hin.
  injection Hin as <-. reflexivity.
Qed.

Lemma simulate_row_time_witness :
  0 < 1000 * 10 ^ 9 /\
  exists row,
    In row (fst (simulate PowBaseOne (1000 * 10 ^ 9) 1 (stateAt 0x1a6f342d)))
    /\ rowDiff row = 0x1a6f342d
    /\ Z.quot (CalcWork (rowDiff row)) (1000 * 10 ^ 9) < 2 ^ 63
    /\ rowTime row = 647.
Proof.
  assert (Hh : 0 < 1000 * 10 ^ 9) by reflexivity.
  split; [exact Hh|].
  destruct (simStep_prints PowBaseOne (1000 * 10 ^ 9) (stateAt 0x1a6f342d) 647)
    as [row [Hrow [Hd _]]]; [vm_compute; reflexivity|].
  exists row.
  destruct (simulate_S PowBaseOne (1000 * 10 ^ 9) 0 (stateAt 0x1a6f342d))
    as [rest Hs].
  assert (Hin : In row (fst (simulate PowBaseOne (1000 * 10 ^ 9) 1
                               (stateAt 0x1a6f342d))))
    by (rewrite Hs, Hrow; left; reflexivity).
  cbn [stateAt diff] in Hd.
  assert (Hq : Z.quot (CalcWork (rowDiff row)) (1000 * 10 ^ 9) < 2 ^ 63)
    by (rewrite Hd; vm_compute; reflexivity).
  split; [exact Hin|]. split; [exact Hd|]. split; [exact Hq|].
  rewrite (simulate_row_time PowBaseOne (1000 * 10 ^ 9) 1 (stateAt 0x1a6f342d)
             row Hh Hin Hq).
  rewrite Hd. vm_compute. reflexivity.
Defined.

(** C10.  The division by the hash rate is unguarded: at hash rate 0 a
    pass panics with a division by zero before it prints anything (for
    every work value, positive ones included), and so does the whole run.
    Among the non-negative hash rates a pass completes only for positive
    ones, and on a full window it does complete for each of them. *)
Theorem simStep_needs_positive_hashRate
    (Pow : float -> float -> float) (hashRate : Z) (st : SimState) :
  0 <= hashRate ->
  (hashRate = 0 ->
   simStep Pow hashRate st = ([], Panic DivisionByZero)
   /\ forall n, simulate Pow hashRate (S n) st = ([], Panic DivisionByZero))
  /\ (forall st', snd (simStep Pow hashRate st) = Ok st' -> 0 < hashRate)
  /\ (0 < hashRate ->
      maxBlocks + 2 <= Z.of_nat (length (lastBlocks st)) ->
      exists st', snd (simStep Pow hashRate st) = Ok st').
Proof.
  intros Hnn.
  assert (H0 : simStep Pow 0 st = ([], Panic DivisionByZero)).
  { unfold simStep. rewrite timeToBlock_zero. reflexivity. }
  split; [|split].
  - intros ->. split; [exact H0|].
    intros n. cbn [simulate]. rewrite H0. reflexivity.
  - intros st' Hok.
    destruct (Z.eq_dec hashRate 0) as [->|Hne]; [|lia].
    rewrite H0 in Hok. discriminate.
  - intros Hpos Hlen.
    destruct (simStep_total Pow hashRate st ltac:(lia) Hlen) as [st' [Hs _]].
    eauto.
Qed.

Lemma simStep_needs_positive_hashRate_witness :
  0 <= 0 /\ 0 < CalcWork 0x1c0ffff0 /\
  simStep PowBaseOne 0 (stateAt 0x1c0ffff0) = ([], Panic DivisionByZero)
  /\ exists st', snd (simStep PowBaseOne (1000 * 10 ^ 9) (stateAt 0x1c0ffff0))
                 = Ok st'.
Proof.
  split; [discriminate|]. split; [reflexivity|]. split.
  - exact (proj1 (proj1 (simStep_needs_positive_hashRate
                           PowBaseOne 0 (stateAt 0x1c0ffff0) ltac:(discriminate))
                        eq_refl)).
  - exact (proj2 (proj2 (simStep_needs_positive_hashRate
                           PowBaseOne (1000 * 10 ^ 9) (stateAt 0x1c0ffff0)
                           ltac:(discriminate)))
                 eq_refl (stateAt_window 0x1c0ffff0)).
Defined.

(** ** Round trip of the codec *)
Lemma scaled_high (m e : Z) : 3 <= e -> scaled m e = m * 2 ^ (8 * (e - 3)).
Proof.
  intros He. unfold scaled. destruct (Z.leb_spec e 3) as [H|H].
  - assert (e = 3) as -> by lia. change (8 * (3 - 3)) with 0.
    rewrite Z.shiftr_0_r. change (2 ^ 0) with 1. lia.
  - apply Z.shiftl_mul_pow2. lia.
Qed.

Lemma scaled_low (m e : Z) :
  e <= 3 -> m mod 2 ^ (8 * (3 - e)) = 0 ->
  scaled m e * 2 ^ (8 * (3 - e)) = m.
Proof.
  intros He Hm. unfold scaled. destruct (Z.leb_spec e 3) as [_|H]; [|lia].
  rewrite Z.shiftr_div_pow2 by lia.
  assert (Hp : 0 < 2 ^ (8 * (3 - e))) by (apply Z.pow_pos_nonneg; lia).
  pose proof (Z.div_mod m (2 ^ (8 * (3 - e))) ltac:(lia)) as Hd. lia.
Qed.

(** Encoding a magnitude [a] of byte length [E] whose three-byte mantissa
    is [m] itself, or [m] shifted up by the byte normalisation will give
    back, packs exactly [e], the sign and [m]. *)
Lemma BigToCompact_parts (e m a E mant0 : Z) (s : bool) :
  1 <= e <= 255 -> 2 ^ 15 <= m < 2 ^ 23 ->
  1 <= E -> 2 ^ (8 * (E - 1)) <= a < 2 ^ (8 * E) ->
  (if E <=? 3 then a * 2 ^ (8 * (3 - E)) else a / 2 ^ (8 * (E - 3))) = mant0 ->
  (3 < E -> a mod 2 ^ (8 * (E - 3)) = 0) ->
  (2 ^ 16 <= m /\ E = e /\ mant0 = m)
  \/ (m < 2 ^ 16 /\ E = e - 1 /\ mant0 = m * 2 ^ 8) ->
  BigToCompact (if s then - a else a) = compactOf e s m.
Proof.
  intros He Hm HE Ha Hmant Hdiv Hcase.
  assert (Hpos : 0 < a).
  { assert (0 < 2 ^ (8 * (E - 1))) by (apply Z.pow_pos_nonneg; lia). lia. }
  set (v := if s then - a else a).
  assert (Hv : v <> 0) by (unfold v; destruct s; lia).
  assert (Habs : Z.abs v = a) by (unfold v; destruct s; lia).
  assert (Hlen : bigBytesLen v = E).
  { apply bigBytesLen_intro; [exact HE|]. rewrite Habs. exact Ha. }
  assert (Hsign : (v <? 0) = s).
  { unfold v. destruct s; [apply Z.ltb_lt|apply Z.ltb_ge]; lia. }
  assert (Hm0 : mant0 = (if bigBytesLen v <=? 3
                         then Z.abs v * 2 ^ (8 * (3 - bigBytesLen v))
                         else Z.abs (v / 2 ^ (8 * (bigBytesLen v - 3))))).
  { rewrite Hlen, Habs, <- Hmant.
    destruct (Z.leb_spec E 3) as [H3|H3]; [reflexivity|].
    assert (Hp : 0 < 2 ^ (8 * (E - 3))) by (apply Z.pow_pos_nonneg; lia).
    assert (Hq : 0 <= a / 2 ^ (8 * (E - 3))) by (apply Z.div_pos; lia).
    unfold v. destruct s.
    - rewrite Z.div_opp_l_z by (try apply Hdiv; lia). lia.
    - lia. }
  assert (Hr : 0 <= mant0 < 2 ^ 24) by (destruct Hcase as [H|H]; lia).
  rewrite (BigToCompact_fields v mant0 Hv Hm0 Hr), Hlen, Hsign.
  destruct Hcase as [[H16 [-> ->]]|[H16 [-> ->]]].
  - destruct (Z.leb_spec (2 ^ 23) m) as [Hb|_]; [lia|].
    rewrite Z.mod_small by lia. reflexivity.
  - destruct (Z.leb_spec (2 ^ 23) (m * 2 ^ 8)) as [_|Hb]; [|lia].
    replace (e - 1 + 1) with e by lia.
    rewrite Z.mod_small by lia. rewrite Z.div_mul by lia. reflexivity.
Qed.

Lemma roundtrip_fields (e m : Z) (s : bool) :
  1 <= e <= 255 -> 2 ^ 15 <= m < 2 ^ 23 ->
  3 <= e \/ m mod 2 ^ (8 * (3 - e)) = 0 ->
  BigToCompact (if s then - scaled m e else scaled m e) = compactOf e s m.
Proof.
  intros He Hm Hlow.
  destruct (Z_le_gt_dec 3 e) as [H3|H3].
  - (* the mantissa is scaled up *)
    rewrite scaled_high by exact H3.
    set (P := 2 ^ (8 * (e - 3))).
    assert (HP : 0 < P) by (apply Z.pow_pos_nonneg; lia).
    assert (H16 : 2 ^ (8 * (e - 1)) = 2 ^ 16 * P).
    { unfold P. rewrite <- Z.pow_add_r by lia. f_equal. lia. }
    destruct (Z_le_gt_dec (2 ^ 16) m) as [Hm16|Hm16].
    + apply (BigToCompact_parts e m (m * P) e m s);
        [lia|lia|lia| | | |left; lia].
      * assert (H24 : 2 ^ (8 * e) = 2 ^ 24 * P).
        { unfold P. rewrite <- Z.pow_add_r by lia. f_equal. lia. }
        rewrite H16, H24. nia.
      * destruct (Z.leb_spec e 3) as [Hle|Hgt].
        -- assert (e = 3) by lia. subst e. unfold P.
           change (2 ^ (8 * (3 - 3))) with 1. lia.
        -- apply Z.div_mul. lia.
      * intros _. apply Z.mod_mul. lia.
    + assert (H8 : 2 ^ (8 * (e - 1 - 1)) = 2 ^ 8 * P).
      { unfold P. rewrite <- Z.pow_add_r by lia. f_equal. lia. }
      assert (H16' : 2 ^ (8 * (e - 1)) = 2 ^ 16 * P) by exact H16.
      apply (BigToCompact_parts e m (m * P) (e - 1) (m * 2 ^ 8) s);
        [lia|lia|lia| | | |right; lia].
      * rewrite H16, H8. nia.
      * destruct (Z.leb_spec (e - 1) 3) as [Hle|Hgt].
        -- unfold P. rewrite <- Z.mul_assoc, <- Z.pow_add_r by lia.
           do 2 f_equal. lia.
        -- assert (HP' : P = 2 ^ 8 * 2 ^ (8 * (e - 1 - 3))).
           { unfold P. rewrite <- Z.pow_add_r by lia. f_equal. lia. }
           rewrite HP', Z.mul_assoc. apply Z.div_mul.
           apply Z.pow_nonzero; lia.
      * intros Hgt.
        assert (HP' : P = 2 ^ 8 * 2 ^ (8 * (e - 1 - 3))).
        { unfold P. rewrite <- Z.pow_add_r by lia. f_equal. lia. }
        rewrite HP', Z.mul_assoc. apply Z.mod_mul.
        apply Z.pow_nonzero; lia.
  - (* the mantissa is scaled down, and loses nothing *)
    destruct Hlow as [Hlow|Hlow]; [lia|].
    pose proof (scaled_low m e ltac:(lia) Hlow) as Ha.
    pose proof (scaled_nonneg m e ltac:(lia)) as Hnn.
    set (a := scaled m e) in *.
    assert (e = 1 \/ e = 2) as [->| ->] by lia.
    + change (2 ^ (8 * (3 - 1))) with 65536 in Ha.
      apply (BigToCompact_parts 1 m a 1 m s);
        [lia|lia|lia| | |lia|left; lia].
      * change (2 ^ (8 * (1 - 1))) with 1. change (2 ^ (8 * 1)) with 256. lia.
      * change (1 <=? 3) with true. cbv iota.
        change (2 ^ (8 * (3 - 1))) with 65536. exact Ha.
    + change (2 ^ (8 * (3 - 2))) with 256 in Ha.
      destruct (Z_le_gt_dec (2 ^ 16) m) as [Hm16|Hm16].
      * apply (BigToCompact_parts 2 m a 2 m s);
          [lia|lia|lia| | |lia|left; lia].
        -- change (2 ^ (8 * (2 - 1))) with 256.
           change (2 ^ (8 * 2)) with 65536. lia.
        -- change (2 <=? 3) with true. cbv iota.
           change (2 ^ (8 * (3 - 2))) with 256. exact Ha.
      * apply (BigToCompact_parts 2 m a 1 (m * 2 ^ 8) s);
          [lia|lia|lia| | |lia|right; lia].
        -- change (2 ^ (8 * (1 - 1))) with 1. change (2 ^ (8 * 1)) with 256. lia.
        -- change (1 <=? 3) with true. cbv iota.
           change (2 ^ (8 * (3 - 1))) with 65536. lia.
Qed.

Lemma normalised_fields (c : Z) :
  0 <= c < 2 ^ 32 -> normalised c = true ->
  1 <= Z.shiftr c 24 <= 255
  /\ 2 ^ 15 <= Z.land c 0x007fffff < 2 ^ 23
  /\ (3 <= Z.shiftr c 24
      \/ Z.land c 0x007fffff mod 2 ^ (8 * (3 - Z.shiftr c 24)) = 0).
Proof.
  intros Hc. unfold normalised. cbv zeta.
  rewrite !andb_true_iff, orb_true_iff, !Z.leb_le, Z.eqb_eq.
  intros [[H1 H2] H3].
  pose proof (mantissa_mask c) as Hmask.
  pose proof (Z.mod_pos_bound c (2 ^ 23) ltac:(lia)) as Hmod.
  assert (He : Z.shiftr c 24 <= 255).
  { rewrite Z.shiftr_div_pow2 by lia.
    assert (c / 2 ^ 24 < 256) by (apply Z.div_lt_upper_bound; lia). lia. }
  change 0x008000 with (2 ^ 15) in H2.
  repeat split; solve [lia | exact H3].
Qed.

Lemma normalised_compactOf (x : Z) (s : bool) (m : Z) :
  0 <= m < 2 ^ 23 ->
  normalised (compactOf x s m)
  = (1 <=? x) && (2 ^ 15 <=? m)
    && ((3 <=? x) || (m mod 2 ^ (8 * (3 - x)) =? 0)).
Proof.
  intros Hm. unfold normalised. cbv zeta.
  rewrite compactOf_mantissa, compactOf_exponent by exact Hm. reflexivity.
Qed.

Lemma bigBytesLen_opp (a : Z) : bigBytesLen (- a) = bigBytesLen a.
Proof.
  unfold bigBytesLen. rewrite Z.abs_opp.
  destruct (Z.eqb_spec a 0) as [->|H]; [reflexivity|].
  destruct (Z.eqb_spec (- a) 0) as [H'|_]; [lia|reflexivity].
Qed.

Lemma scaled_below (m e : Z) :
  0 <= e -> 0 <= m < 2 ^ 23 -> scaled m e < 2 ^ (8 * e).
Proof.
  intros He Hm. unfold scaled. destruct (Z.leb_spec e 3) as [H3|H3].
  - rewrite Z.shiftr_div_pow2 by lia.
    assert (Hp : 0 < 2 ^ (8 * (3 - e))) by (apply Z.pow_pos_nonneg; lia).
    assert (H24 : 2 ^ 24 = 2 ^ (8 * (3 - e)) * 2 ^ (8 * e)).
    { rewrite <- Z.pow_add_r by lia. f_equal. lia. }
    apply Z.div_lt_upper_bound; lia.
  - rewrite Z.shiftl_mul_pow2 by lia.
    assert (Hp : 0 < 2 ^ (8 * (e - 3))) by (apply Z.pow_pos_nonneg; lia).
    assert (H24 : 2 ^ (8 * e) = 2 ^ 24 * 2 ^ (8 * (e - 3))).
    { rewrite <- Z.pow_add_r by lia. f_equal. lia. }
    rewrite H24. nia.
Qed.

(** What decoding yields, when it is not zero, encodes to a normalised
    value. *)
Lemma BigToCompact_decoded_normalised (e m : Z) (s : bool) :
  0 <= e <= 255 -> 0 <= m < 2 ^ 23 -> scaled m e <> 0 ->
  normalised (BigToCompact (if s then - scaled m e else scaled m e)) = true.
Proof.
  intros He Hm Hnz.
  pose proof (scaled_nonneg m e ltac:(lia)) as Hnn.
  pose proof (scaled_below m e ltac:(lia) Hm) as Hup.
  assert (Hhigh : 3 < e -> scaled m e = m * 2 ^ (8 * (e - 3)))
    by (intros; apply scaled_high; lia).
  assert (Hlow : e <= 3 -> scaled m e * 2 ^ (8 * (3 - e)) <= m).
  { intros H3. unfold scaled. destruct (Z.leb_spec e 3) as [_|H]; [|lia].
    rewrite Z.shiftr_div_pow2, Z.mul_comm by lia.
    apply Z.mul_div_le. apply Z.pow_pos_nonneg; lia. }
  set (a := scaled m e) in *.
  assert (Hpos : 0 < a) by lia.
  set (v := if s then - a else a).
  assert (Hv : v <> 0) by (unfold v; destruct s; lia).
  assert (Habs : Z.abs v = a) by (unfold v; destruct s; lia).
  assert (Hlen : bigBytesLen v = bigBytesLen a).
  { unfold v. destruct s; [apply bigBytesLen_opp|reflexivity]. }
  destruct (bigBytesLen_bounds a ltac:(lia)) as [HE [Hlo Hhi]].
  rewrite (Z.abs_eq a) in Hlo, Hhi by lia.
  pose proof (mant0_range_pos a Hpos) as Hr.
  rewrite (Z.abs_eq a) in Hr by lia.
  set (E := bigBytesLen a) in *.
  assert (HEe : E <= e).
  { destruct (Z_le_gt_dec E e) as [H|H]; [exact H|exfalso].
    assert (2 ^ (8 * e) <= 2 ^ (8 * (E - 1))) by (apply Z.pow_le_mono_r; lia).
    lia. }
  assert (HE3 : 3 < E -> 3 < e) by lia.
  assert (Hdivides : 3 < E -> a mod 2 ^ (8 * (E - 3)) = 0).
  { intros H. rewrite (Hhigh ltac:(lia)).
    replace (8 * (e - 3)) with (8 * (e - E) + 8 * (E - 3)) by lia.
    rewrite Z.pow_add_r, Z.mul_assoc by lia.
    apply Z.mod_mul. apply Z.pow_nonzero; lia. }
  remember (if E <=? 3 then a * 2 ^ (8 * (3 - E))
            else Z.abs (a / 2 ^ (8 * (E - 3)))) as mant0 eqn:Hdef.
  assert (Hm0 : mant0 = (if bigBytesLen v <=? 3
                         then Z.abs v * 2 ^ (8 * (3 - bigBytesLen v))
                         else Z.abs (v / 2 ^ (8 * (bigBytesLen v - 3))))).
  { rewrite Hlen, Habs, Hdef. fold E.
    destruct (Z.leb_spec E 3) as [H3|H3]; [reflexivity|].
    unfold v. destruct s; [|reflexivity].
    rewrite Z.div_opp_l_z, Z.abs_opp;
      [reflexivity|apply Z.pow_nonzero; lia|apply Hdivides; exact H3]. }
  (* when the mantissa is shifted back a byte, the exponent has room *)
  assert (Hroom : 2 ^ 23 <= mant0 -> E < e).
  { intros Hb. destruct (Z.eq_dec E e) as [Heq|Hne]; [exfalso|lia].
    rewrite Hdef, Heq in Hb.
    destruct (Z.leb_spec e 3) as [H3|H3].
    - specialize (Hlow H3). lia.
    - rewrite (Hhigh H3), Z.div_mul, Z.abs_eq in Hb
        by (try apply Z.pow_nonzero; lia). lia. }
  rewrite (BigToCompact_fields v mant0 Hv Hm0 ltac:(lia)), Hlen. fold E.
  destruct (Z.leb_spec (2 ^ 23) mant0) as [Hb|Hb].
  - specialize (Hroom Hb).
    assert (Hm' : 2 ^ 15 <= mant0 / 2 ^ 8 < 2 ^ 23).
    { split; [apply Z.div_le_lower_bound; lia|apply Z.div_lt_upper_bound; lia]. }
    rewrite normalised_compactOf by lia.
    rewrite Z.mod_small by lia.
    rewrite !andb_true_iff, orb_true_iff, !Z.leb_le, Z.eqb_eq.
    split; [lia|].
    destruct (Z_le_gt_dec 3 (E + 1)) as [H3|H3]; [left; exact H3|right].
    assert (E = 1) by lia.
    rewrite Hdef. replace E with 1 by lia.
    change (1 <=? 3) with true. cbv iota.
    change (2 ^ (8 * (3 - 1))) with (2 ^ 8 * 2 ^ 8).
    change (2 ^ (8 * (3 - (1 + 1)))) with (2 ^ 8).
    rewrite Z.mul_assoc, Z.div_mul by lia.
    apply Z.mod_mul. lia.
  - rewrite normalised_compactOf by lia.
    rewrite Z.mod_small by lia.
    rewrite !andb_true_iff, orb_true_iff, !Z.leb_le, Z.eqb_eq.
    split; [lia|].
    destruct (Z_le_gt_dec 3 E) as [H3|H3]; [left; exact H3|right].
    rewrite Hdef. destruct (Z.leb_spec E 3) as [_|H]; [|lia].
    apply Z.mod_mul. apply Z.pow_nonzero; lia.
Qed.

(** C5 as stated fails: [0x04000001] has exponent 4, so decoding shifts
    its mantissa up and drops nothing (it is exactly [1 * 256 ^ (4 - 3)]),
    yet encoding the result gives [0x02010000]. *)
Lemma roundtrip_counterexample :
  0 <= 0x04000001 < 2 ^ 32 /\
  Z.shiftr 0x04000001 24 = 4 /\
  CompactToBig 0x04000001 = 1 * 256 ^ (4 - 3) /\
  BigToCompact (CompactToBig 0x04000001) = 0x02010000 /\
  BigToCompact (CompactToBig 0x04000001) <> 0x04000001.
Proof.
  repeat split; try reflexivity; vm_compute; discriminate.
Qed.

(** C5, as the code has it.  Decoding then encoding reproduces a 32-bit
    compact value exactly when the value is 0 or in the normalised form
    the encoder produces: exponent at least 1, mantissa at least [0x008000],
    and, for an exponent below 3, no mantissa bits that decoding would cut
    off.  Every other value comes back changed. *)
Theorem codec_roundtrip_iff_normalised (c : Z) :
  0 <= c < 2 ^ 32 ->
  BigToCompact (CompactToBig c) = c <-> c = 0 \/ normalised c = true.
Proof.
  intros Hc.
  pose proof (mantissa_mask c) as Hmask.
  pose proof (Z.mod_pos_bound c (2 ^ 23) ltac:(lia)) as Hmod.
  assert (Hm : 0 <= Z.land c 0x007fffff < 2 ^ 23) by lia.
  assert (Hdec : CompactToBig c
                 = if Z.testbit c 23
                   then - scaled (Z.land c 0x007fffff) (Z.shiftr c 24)
                   else scaled (Z.land c 0x007fffff) (Z.shiftr c 24)).
  { rewrite (compactOf_fields c) at 1. apply CompactToBig_compactOf. exact Hm. }
  split.
  - intros H.
    destruct (Z.eq_dec (scaled (Z.land c 0x007fffff) (Z.shiftr c 24)) 0)
      as [Hz|Hnz].
    + left. rewrite Hdec, Hz in H.
      destruct (Z.testbit c 23); symmetry; exact H.
    + right. rewrite <- H, Hdec.
      apply BigToCompact_decoded_normalised; [|exact Hm|exact Hnz].
      rewrite Z.shiftr_div_pow2 by lia. split; [apply Z.div_pos; lia|].
      assert (c / 2 ^ 24 < 256) by (apply Z.div_lt_upper_bound; lia). lia.
  - intros [->|Hn]; [reflexivity|].
    destruct (normalised_fields c Hc Hn) as [He [Hm' Hlow]].
    rewrite Hdec, roundtrip_fields by assumption.
    symmetry. apply compactOf_fields.
Qed.

Lemma codec_roundtrip_iff_normalised_witness :
  0 <= 0x1e0fffff < 2 ^ 32 /\ normalised 0x1e0fffff = true /\
  BigToCompact (CompactToBig 0x1e0fffff) = 0x1e0fffff.
Proof.
  assert (H1 : 0 <= 0x1e0fffff < 2 ^ 32) by (split; [discriminate|reflexivity]).
  assert (H2 : normalised 0x1e0fffff = true) by reflexivity.
  split; [exact H1|]. split; [exact H2|].
  exact (proj2 (codec_roundtrip_iff_normalised 0x1e0fffff H1) (or_intror H2)).
Defined.

(** ** What the encoder packs for a positive target *)

(** The largest magnitude a compact value can carry is below [2 ^ 2039];
    under it the exponent byte does not wrap. *)
Lemma BigToCompact_pos_fields (n : Z) :
  0 < n < 2 ^ 2039 ->
  exists E' m',
    BigToCompact n = compactOf E' false m'
    /\ 1 <= E' <= 255 /\ 2 ^ 15 <= m' < 2 ^ 23
    /\ 2 * n < 2 ^ (8 * E') /\ 2 ^ (8 * E') <= 2 ^ 9 * n
    /\ (E' <= 3 -> m' = n * 2 ^ (8 * (3 - E')))
    /\ (3 < E' -> m' = n / 2 ^ (8 * (E' - 3))).
Proof.
  intros [Hpos Hup].
  pose proof (mant0_range_pos n Hpos) as Hr.
  destruct (bigBytesLen_bounds n ltac:(lia)) as [HE [Hlo Hhi]].
  rewrite (Z.abs_eq n) in * by lia.
  remember (if bigBytesLen n <=? 3
            then n * 2 ^ (8 * (3 - bigBytesLen n))
            else Z.abs (n / 2 ^ (8 * (bigBytesLen n - 3)))) as mant0 eqn:Hdef.
  assert (Hm0 : mant0 = (if bigBytesLen n <=? 3
                         then Z.abs n * 2 ^ (8 * (3 - bigBytesLen n))
                         else Z.abs (n / 2 ^ (8 * (bigBytesLen n - 3)))))
    by (rewrite (Z.abs_eq n) by lia; exact Hdef).
  rewrite (BigToCompact_fields n mant0 ltac:(lia) Hm0 ltac:(lia)).
  destruct (Z.ltb_spec n 0) as [Hneg|_]; [lia|].
  set (E := bigBytesLen n) in *.
  assert (HE255 : E <= 255).
  { destruct (Z_le_gt_dec E 255) as [H|H]; [exact H|exfalso].
    assert (2 ^ 2039 <= 2 ^ (8 * (E - 1))) by (apply Z.pow_le_mono_r; lia).
    lia. }
  assert (H8E : 2 ^ (8 * E) = 2 ^ 8 * 2 ^ (8 * (E - 1))).
  { rewrite <- Z.pow_add_r by lia. f_equal. lia. }
  (* the mantissa before normalisation, against [n] *)
  assert (Hrel : (E <= 3 -> mant0 = n * 2 ^ (8 * (3 - E))
                            /\ 2 ^ 24 = 2 ^ (8 * E) * 2 ^ (8 * (3 - E))
                            /\ 0 < 2 ^ (8 * (3 - E)))
                 /\ (3 < E -> mant0 = n / 2 ^ (8 * (E - 3))
                              /\ 2 ^ (8 * E) = 2 ^ 24 * 2 ^ (8 * (E - 3))
                              /\ 0 < 2 ^ (8 * (E - 3)))).
  { split; intros H3.
    - split; [|split].
      + rewrite Hdef. destruct (Z.leb_spec E 3); [reflexivity|lia].
      + rewrite <- Z.pow_add_r by lia. f_equal. lia.
      + apply Z.pow_pos_nonneg; lia.
    - split; [|split].
      + rewrite Hdef. destruct (Z.leb_spec E 3); [lia|].
        apply Z.abs_eq. apply Z.div_pos; [lia|apply Z.pow_pos_nonneg; lia].
      + rewrite <- Z.pow_add_r by lia. f_equal. lia.
      + apply Z.pow_pos_nonneg; lia. }
  destruct Hrel as [Hle3 Hgt3].
  destruct (Z.leb_spec (2 ^ 23) mant0) as [Hb|Hb].
  - (* shifted back one byte *)
    assert (HE254 : E <= 254).
    { destruct (Z_le_gt_dec E 254) as [H|H]; [exact H|exfalso].
      assert (E = 255) by lia.
      destruct (Hgt3 ltac:(lia)) as [Hm [Hp1 Hp2]].
      assert (n / 2 ^ (8 * (E - 3)) < 2 ^ 23); [|lia].
      apply Z.div_lt_upper_bound; [lia|].
      replace (8 * (E - 3)) with 2016 by lia.
      change (2 ^ 2016 * 2 ^ 23) with (2 ^ 2039). lia. }
    exists (E + 1), (mant0 / 2 ^ 8).
    rewrite Z.mod_small by lia.
    split; [reflexivity|]. split; [lia|]. split.
    { split; [apply Z.div_le_lower_bound; lia|apply Z.div_lt_upper_bound; lia]. }
    assert (H8E1 : 2 ^ (8 * (E + 1)) = 2 ^ 8 * 2 ^ (8 * E)).
    { rewrite <- Z.pow_add_r by lia. f_equal. lia. }
    split; [lia|]. split.
    { rewrite H8E1. destruct (Z_le_gt_dec E 3) as [H3|H3].
      - destruct (Hle3 H3) as [Hm [Hp1 Hp2]].
        apply (Z.mul_le_mono_pos_r _ _ (2 ^ (8 * (3 - E))) Hp2). lia.
      - destruct (Hgt3 ltac:(lia)) as [Hm [Hp1 Hp2]].
        pose proof (Z.mul_div_le n (2 ^ (8 * (E - 3))) Hp2) as Hd.
        rewrite <- Hm in Hd.
        assert (2 ^ (8 * (E - 3)) * 2 ^ 23 <= 2 ^ (8 * (E - 3)) * mant0)
          by (apply Z.mul_le_mono_nonneg_l; lia).
        lia. }
    split.
    + intros H3. destruct (Hle3 ltac:(lia)) as [Hm _]. rewrite Hm.
      replace (8 * (3 - E)) with (8 * (3 - (E + 1)) + 8) by lia.
      rewrite Z.pow_add_r, Z.mul_assoc by lia. apply Z.div_mul. lia.
    + intros H3. destruct (Z.eq_dec E 3) as [E3|E3].
      * destruct (Hle3 ltac:(lia)) as [Hm _]. rewrite Hm, E3.
        change (2 ^ (8 * (3 - 3))) with 1. change (8 * (3 + 1 - 3)) with 8.
        rewrite Z.mul_1_r. reflexivity.
      * destruct (Hgt3 ltac:(lia)) as [Hm [_ Hp]]. rewrite Hm.
        rewrite Z.div_div by lia. rewrite <- Z.pow_add_r by lia.
        do 2 f_equal. lia.
  - exists E, mant0.
    rewrite Z.mod_small by lia.
    split; [reflexivity|]. split; [lia|]. split; [lia|]. split.
    { destruct (Z_le_gt_dec E 3) as [H3|H3].
      - destruct (Hle3 H3) as [Hm [Hp1 Hp2]].
        apply (Z.mul_lt_mono_pos_r (2 ^ (8 * (3 - E))) _ _ Hp2). lia.
      - destruct (Hgt3 ltac:(lia)) as [Hm [Hp1 Hp2]].
        assert (n < 2 ^ 23 * 2 ^ (8 * (E - 3))).
        { destruct (Z_lt_le_dec n (2 ^ 23 * 2 ^ (8 * (E - 3)))) as [H|H];
            [exact H|exfalso].
          assert (2 ^ 23 <= n / 2 ^ (8 * (E - 3)))
            by (apply Z.div_le_lower_bound; lia).
          lia. }
        lia. }
    split; [lia|]. split.
    + intros H3. apply Hle3. exact H3.
    + intros H3. apply Hgt3. exact H3.
Qed.

Lemma scaled_of_pos_fields (n E' m' : Z) :
  0 < n -> 1 <= E' ->
  (E' <= 3 -> m' = n * 2 ^ (8 * (3 - E'))) ->
  (3 < E' -> m' = n / 2 ^ (8 * (E' - 3))) ->
  (E' <= 3 -> scaled m' E' = n)
  /\ (3 < E' -> scaled m' E' = n / 2 ^ (8 * (E' - 3)) * 2 ^ (8 * (E' - 3))).
Proof.
  intros Hn HE Hlow Hhigh. unfold scaled. split; intros H3.
  - destruct (Z.leb_spec E' 3) as [_|H]; [|lia].
    rewrite (Hlow H3), Z.shiftr_div_pow2 by lia.
    apply Z.div_mul. apply Z.pow_nonzero; lia.
  - destruct (Z.leb_spec E' 3) as [H|_]; [lia|].
    rewrite (Hhigh H3), Z.shiftl_mul_pow2 by lia. reflexivity.
Qed.

Lemma encoded_precision (n : Z) :
  0 < n < 2 ^ 2039 ->
  0 < CompactToBig (BigToCompact n) <= n
  /\ 2 ^ 15 * (n - CompactToBig (BigToCompact n)) < CompactToBig (BigToCompact n)
  /\ (n < 2 ^ 23 -> CompactToBig (BigToCompact n) = n).
Proof.
  intros Hn.
  destruct (BigToCompact_pos_fields n Hn)
    as [E' [m' [Hc [HE [Hm [Hup [Hlo [Hlow Hhigh]]]]]]]].
  rewrite Hc, CompactToBig_compactOf by lia.
  destruct (scaled_of_pos_fields n E' m' ltac:(lia) ltac:(lia) Hlow Hhigh)
    as [Hs3 Hs4].
  destruct (Z_le_gt_dec E' 3) as [H3|H3].
  - rewrite (Hs3 H3). repeat split; lia.
  - rewrite (Hs4 ltac:(lia)).
    assert (Hp : 0 < 2 ^ (8 * (E' - 3))) by (apply Z.pow_pos_nonneg; lia).
    pose proof (Z.div_mod n (2 ^ (8 * (E' - 3))) ltac:(lia)) as Hdm.
    pose proof (Z.mod_pos_bound n (2 ^ (8 * (E' - 3))) Hp) as Hmb.
    rewrite <- (Hhigh ltac:(lia)) in *.
    assert (Hscale : 2 ^ 15 * 2 ^ (8 * (E' - 3)) <= m' * 2 ^ (8 * (E' - 3)))
      by (apply Z.mul_le_mono_nonneg_r; lia).
    split; [lia|]. split; [lia|].
    intros Hsmall. exfalso.
    assert (2 ^ (8 * 4) <= 2 ^ (8 * E')) by (apply Z.pow_le_mono_r; lia).
    change (2 ^ (8 * 4)) with (2 ^ 9 * 2 ^ 23) in *. lia.
Qed.

(** X2.  Encoding a positive target below [2 ^ 2039] and decoding it back
    gives a positive target that is at most the original and misses it by
    less than one part in [2 ^ 15]; targets below [2 ^ 23] come back
    exactly. *)
Theorem BigToCompact_precision (n : Z) :
  0 < n < 2 ^ 2039 ->
  0 < CompactToBig (BigToCompact n) <= n
  /\ 2 ^ 15 * (n - CompactToBig (BigToCompact n)) < CompactToBig (BigToCompact n)
  /\ (n < 2 ^ 23 -> CompactToBig (BigToCompact n) = n).
Proof. apply encoded_precision. Qed.

Lemma BigToCompact_precision_witness :
  0 < 2 ^ 236 - 1 < 2 ^ 2039 /\
  CompactToBig (BigToCompact (2 ^ 236 - 1)) = 2 ^ 236 - 2 ^ 216 /\
  2 ^ 15 * (2 ^ 236 - 1 - CompactToBig (BigToCompact (2 ^ 236 - 1)))
  < CompactToBig (BigToCompact (2 ^ 236 - 1)).
Proof.
  assert (H : 0 < 2 ^ 236 - 1 < 2 ^ 2039) by (split; reflexivity).
  split; [exact H|]. split; [reflexivity|].
  exact (proj1 (proj2 (BigToCompact_precision (2 ^ 236 - 1) H))).
Defined.

Lemma encoded_normal_form (n : Z) :
  0 < n < 2 ^ 2039 ->
  0 <= BigToCompact n < 2 ^ 32
  /\ normalised (BigToCompact n) = true
  /\ Z.testbit (BigToCompact n) 23 = false
  /\ BigToCompact (CompactToBig (BigToCompact n)) = BigToCompact n.
Proof.
  intros Hn.
  destruct (BigToCompact_pos_fields n Hn)
    as [E' [m' [Hc [HE [Hm [Hup [Hlo [Hlow Hhigh]]]]]]]].
  assert (Hbits : 3 <= E' \/ m' mod 2 ^ (8 * (3 - E')) = 0).
  { destruct (Z_le_gt_dec 3 E') as [H3|H3]; [left; exact H3|right].
    rewrite (Hlow ltac:(lia)). apply Z.mod_mul. apply Z.pow_nonzero; lia. }
  rewrite Hc. split; [|split; [|split]].
  - unfold compactOf. lia.
  - rewrite normalised_compactOf by lia.
    rewrite !andb_true_iff, orb_true_iff, !Z.leb_le, Z.eqb_eq.
    split; [lia|exact Hbits].
  - apply compactOf_sign. lia.
  - rewrite CompactToBig_compactOf by lia.
    apply (roundtrip_fields E' m' false); assumption.
Qed.

(** X3.  For a positive target below [2 ^ 2039] the encoder's output is a
    32-bit value in normalised form with the sign bit clear, and it is a
    fixed point of decoding then encoding. *)
Theorem BigToCompact_normal_form (n : Z) :
  0 < n < 2 ^ 2039 ->
  0 <= BigToCompact n < 2 ^ 32
  /\ normalised (BigToCompact n) = true
  /\ Z.testbit (BigToCompact n) 23 = false
  /\ BigToCompact (CompactToBig (BigToCompact n)) = BigToCompact n.
Proof. apply encoded_normal_form. Qed.

Lemma BigToCompact_normal_form_witness :
  0 < 2 ^ 236 - 1 < 2 ^ 2039 /\
  normalised (BigToCompact (2 ^ 236 - 1)) = true /\
  BigToCompact (CompactToBig (BigToCompact (2 ^ 236 - 1)))
  = BigToCompact (2 ^ 236 - 1).
Proof.
  assert (H : 0 < 2 ^ 236 - 1 < 2 ^ 2039) by (split; reflexivity).
  split; [exact H|].
  pose proof (BigToCompact_normal_form (2 ^ 236 - 1) H) as [_ [Hn [_ Hi]]].
  split; [exact Hn|exact Hi].
Defined.

Lemma encoded_order (n1 n2 : Z) :
  0 < n1 -> n1 <= n2 -> n2 < 2 ^ 2039 ->
  BigToCompact n1 <= BigToCompact n2
  /\ CompactToBig (BigToCompact n1) <= CompactToBig (BigToCompact n2).
Proof.
  intros H1 H12 H2.
  destruct (BigToCompact_pos_fields n1 ltac:(lia))
    as [E1 [m1 [Hc1 [HE1 [Hm1 [Hup1 [Hlo1 [Hlow1 Hhigh1]]]]]]]].
  destruct (BigToCompact_pos_fields n2 ltac:(lia))
    as [E2 [m2 [Hc2 [HE2 [Hm2 [Hup2 [Hlo2 [Hlow2 Hhigh2]]]]]]]].
  assert (HE : E1 <= E2).
  { destruct (Z_le_gt_dec E1 E2) as [H|H]; [exact H|exfalso].
    assert (2 ^ (8 * (E2 + 1)) <= 2 ^ (8 * E1))
      by (apply Z.pow_le_mono_r; lia).
    assert (2 ^ (8 * (E2 + 1)) = 2 ^ 8 * 2 ^ (8 * E2)).
    { rewrite <- Z.pow_add_r by lia. f_equal. lia. }
    lia. }
  destruct (scaled_of_pos_fields n1 E1 m1 ltac:(lia) ltac:(lia) Hlow1 Hhigh1)
    as [Hs13 Hs14].
  destruct (scaled_of_pos_fields n2 E2 m2 ltac:(lia) ltac:(lia) Hlow2 Hhigh2)
    as [Hs23 Hs24].
  rewrite Hc1, Hc2, !CompactToBig_compactOf by lia.
  destruct (Z.eq_dec E1 E2) as [Heq|Hne].
  - subst E2.
    assert (Hmm : m1 <= m2).
    { destruct (Z_le_gt_dec E1 3) as [H3|H3].
      - rewrite (Hlow1 H3), (Hlow2 H3).
        apply Z.mul_le_mono_nonneg_r; [apply Z.pow_nonneg; lia|lia].
      - rewrite (Hhigh1 ltac:(lia)), (Hhigh2 ltac:(lia)).
        apply Z.div_le_mono; [apply Z.pow_pos_nonneg; lia|lia]. }
    split; [unfold compactOf; lia|].
    destruct (Z_le_gt_dec E1 3) as [H3|H3].
    + rewrite (Hs13 H3), (Hs23 H3). lia.
    + rewrite (Hs14 ltac:(lia)), (Hs24 ltac:(lia)).
      rewrite <- (Hhigh1 ltac:(lia)), <- (Hhigh2 ltac:(lia)).
      apply Z.mul_le_mono_nonneg_r; [apply Z.pow_nonneg; lia|lia].
  - split; [unfold compactOf; lia|].
    assert (Hd1 : scaled m1 E1 <= n1).
    { destruct (Z_le_gt_dec E1 3) as [H3|H3].
      - rewrite (Hs13 H3). lia.
      - rewrite (Hs14 ltac:(lia)), Z.mul_comm.
        apply Z.mul_div_le. apply Z.pow_pos_nonneg; lia. }
    destruct (Z_le_gt_dec E2 3) as [H3|H3].
    + rewrite (Hs23 H3). lia.
    + rewrite (Hs24 ltac:(lia)), <- (Hhigh2 ltac:(lia)).
      assert (Hp : 0 < 2 ^ (8 * (E2 - 3))) by (apply Z.pow_pos_nonneg; lia).
      assert (H16 : 2 ^ (8 * (E2 - 1)) = 2 ^ 16 * 2 ^ (8 * (E2 - 3))).
      { rewrite <- Z.pow_add_r by lia. f_equal. lia. }
      assert (Hpow : 2 ^ (8 * E1) <= 2 ^ (8 * (E2 - 1)))
        by (apply Z.pow_le_mono_r; lia).
      assert (Hscale : 2 ^ 15 * 2 ^ (8 * (E2 - 3)) <= m2 * 2 ^ (8 * (E2 - 3)))
        by (apply Z.mul_le_mono_nonneg_r; lia).
      lia.
Qed.

(** X4.  On positive targets below [2 ^ 2039] the encoder keeps the order:
    a larger target never gets a smaller compact value, nor a smaller
    decoded one. *)
Theorem BigToCompact_monotone (n1 n2 : Z) :
  0 < n1 -> n1 <= n2 -> n2 < 2 ^ 2039 ->
  BigToCompact n1 <= BigToCompact n2
  /\ CompactToBig (BigToCompact n1) <= CompactToBig (BigToCompact n2).
Proof. apply encoded_order. Qed.

Lemma BigToCompact_monotone_witness :
  0 < CompactToBig 0x1b0404cb /\
  CompactToBig 0x1b0404cb <= 2 ^ 236 - 1 /\ 2 ^ 236 - 1 < 2 ^ 2039 /\
  BigToCompact (CompactToBig 0x1b0404cb) <= BigToCompact (2 ^ 236 - 1).
Proof.
  assert (H1 : 0 < CompactToBig 0x1b0404cb) by reflexivity.
  assert (H2 : CompactToBig 0x1b0404cb <= 2 ^ 236 - 1)
    by (vm_compute; discriminate).
  assert (H3 : 2 ^ 236 - 1 < 2 ^ 2039) by reflexivity.
  split; [exact H1|]. split; [exact H2|]. split; [exact H3|].
  exact (proj1 (BigToCompact_monotone _ _ H1 H2 H3)).
Defined.

(** ** Decoded values survive re-encoding *)

Lemma decoded_reencodes (e m : Z) (s : bool) :
  0 <= e <= 255 -> 0 <= m < 2 ^ 23 ->
  CompactToBig (BigToCompact (if s then - scaled m e else scaled m e))
  = if s then - scaled m e else scaled m e.
Proof.
  intros He Hm.
  pose proof (scaled_nonneg m e ltac:(lia)) as Hnn.
  destruct (Z.eq_dec (scaled m e) 0) as [Hz|Hnz].
  { rewrite Hz. destruct s; reflexivity. }
  pose proof (scaled_below m e ltac:(lia) Hm) as Hup.
  assert (Hhigh : 3 < e -> scaled m e = m * 2 ^ (8 * (e - 3)))
    by (intros; apply scaled_high; lia).
  assert (Hlow : e <= 3 -> scaled m e * 2 ^ (8 * (3 - e)) <= m).
  { intros H3. unfold scaled. destruct (Z.leb_spec e 3) as [_|H]; [|lia].
    rewrite Z.shiftr_div_pow2, Z.mul_comm by lia.
    apply Z.mul_div_le. apply Z.pow_pos_nonneg; lia. }
  set (a := scaled m e) in *.
  assert (Hpos : 0 < a) by lia.
  set (v := if s then - a else a).
  assert (Hv : v <> 0) by (unfold v; destruct s; lia).
  assert (Habs : Z.abs v = a) by (unfold v; destruct s; lia).
  assert (Hsign : (v <? 0) = s).
  { unfold v. destruct s; [apply Z.ltb_lt|apply Z.ltb_ge]; lia. }
  assert (Hlen : bigBytesLen v = bigBytesLen a).
  { unfold v. destruct s; [apply bigBytesLen_opp|reflexivity]. }
  destruct (bigBytesLen_bounds a ltac:(lia)) as [HE [Hlo Hhi]].
  rewrite (Z.abs_eq a) in Hlo, Hhi by lia.
  pose proof (mant0_range_pos a Hpos) as Hr.
  rewrite (Z.abs_eq a) in Hr by lia.
  set (E := bigBytesLen a) in *.
  assert (HEe : E <= e).
  { destruct (Z_le_gt_dec E e) as [H|H]; [exact H|exfalso].
    assert (2 ^ (8 * e) <= 2 ^ (8 * (E - 1))) by (apply Z.pow_le_mono_r; lia).
    lia. }
  (* [a] is a multiple of every power of 256 up to [256 ^ (e - 3)] *)
  assert (Hmult : forall j, 0 <= j <= e - 3 ->
                            a = a / 2 ^ (8 * j) * 2 ^ (8 * j)).
  { intros j Hj.
    destruct (Z.eq_dec j 0) as [->|Hj0].
    { change (2 ^ (8 * 0)) with 1. rewrite Z.div_1_r. lia. }
    rewrite (Hhigh ltac:(lia)).
    replace (8 * (e - 3)) with (8 * (e - 3 - j) + 8 * j) by lia.
    rewrite Z.pow_add_r, Z.mul_assoc by lia.
    rewrite Z.div_mul by (apply Z.pow_nonzero; lia). reflexivity. }
  remember (if E <=? 3 then a * 2 ^ (8 * (3 - E))
            else Z.abs (a / 2 ^ (8 * (E - 3)))) as mant0 eqn:Hdef.
  assert (Hm0 : mant0 = (if bigBytesLen v <=? 3
                         then Z.abs v * 2 ^ (8 * (3 - bigBytesLen v))
                         else Z.abs (v / 2 ^ (8 * (bigBytesLen v - 3))))).
  { rewrite Hlen, Habs, Hdef. fold E.
    destruct (Z.leb_spec E 3) as [H3|H3]; [reflexivity|].
    unfold v. destruct s; [|reflexivity].
    rewrite Z.div_opp_l_z, Z.abs_opp; [reflexivity|apply Z.pow_nonzero; lia|].
    rewrite (Hmult (E - 3) ltac:(lia)) at 1.
    apply Z.mod_mul. apply Z.pow_nonzero; lia. }
  assert (Hroom : 2 ^ 23 <= mant0 -> E < e).
  { intros Hb. destruct (Z.eq_dec E e) as [Heq|Hne]; [exfalso|lia].
    rewrite Hdef, Heq in Hb.
    destruct (Z.leb_spec e 3) as [H3|H3].
    - specialize (Hlow H3). lia.
    - rewrite (Hhigh H3), Z.div_mul, Z.abs_eq in Hb
        by (try apply Z.pow_nonzero; lia). lia. }
  rewrite (BigToCompact_fields v mant0 Hv Hm0 ltac:(lia)), Hlen, Hsign. fold E.
  assert (Hgoal : scaled (if 2 ^ 23 <=? mant0 then mant0 / 2 ^ 8 else mant0)
                         ((if 2 ^ 23 <=? mant0 then E + 1 else E) mod 2 ^ 8)
                  = a).
  { destruct (Z.leb_spec (2 ^ 23) mant0) as [Hb|Hb].
    - specialize (Hroom Hb). rewrite Z.mod_small by lia.
      unfold scaled. destruct (Z.leb_spec (E + 1) 3) as [H3|H3].
      + rewrite Hdef. destruct (Z.leb_spec E 3) as [_|H]; [|lia].
        rewrite Z.shiftr_div_pow2 by lia.
        replace (8 * (3 - E)) with (8 * (3 - (E + 1)) + 8) by lia.
        rewrite Z.pow_add_r, Z.mul_assoc by lia.
        rewrite !Z.div_mul by (apply Z.pow_nonzero; lia). reflexivity.
      + rewrite Z.shiftl_mul_pow2 by lia.
        assert (Hm8 : mant0 / 2 ^ 8 = a / 2 ^ (8 * (E + 1 - 3))).
        { rewrite Hdef. destruct (Z.leb_spec E 3) as [Hle|Hgt].
          - assert (E = 3) by lia. subst E.
            replace (bigBytesLen a) with 3 by lia.
            change (2 ^ (8 * (3 - 3))) with 1. rewrite Z.mul_1_r. reflexivity.
          - rewrite Z.abs_eq
              by (apply Z.div_pos; [lia|apply Z.pow_pos_nonneg; lia]).
            rewrite Z.div_div by (try apply Z.pow_pos_nonneg; lia).
            rewrite <- Z.pow_add_r by lia. do 2 f_equal. lia. }
        rewrite Hm8. symmetry. apply Hmult. lia.
    - rewrite Z.mod_small by lia.
      unfold scaled. rewrite Hdef. destruct (Z.leb_spec E 3) as [H3|H3].
      + rewrite Z.shiftr_div_pow2 by lia.
        apply Z.div_mul. apply Z.pow_nonzero; lia.
      + rewrite Z.shiftl_mul_pow2 by lia.
        rewrite Z.abs_eq by (apply Z.div_pos; [lia|apply Z.pow_pos_nonneg; lia]).
        symmetry. apply Hmult. lia. }
  rewrite CompactToBig_compactOf.
  - rewrite Hgoal. reflexivity.
  - destruct (Z.leb_spec (2 ^ 23) mant0) as [Hb|Hb]; [|lia].
    split; [apply Z.div_pos; lia|apply Z.div_lt_upper_bound; lia].
Qed.

(** X1.  Whatever a 32-bit compact value decodes to, encoding it and
    decoding again gives the same target: re-encoding may change the bits
    of a compact value, never the target it stands for. *)
Theorem decode_encode_decode (c : Z) :
  0 <= c < 2 ^ 32 ->
  CompactToBig (BigToCompact (CompactToBig c)) = CompactToBig c.
Proof.
  intros Hc.
  pose proof (mantissa_mask c) as Hmask.
  pose proof (Z.mod_pos_bound c (2 ^ 23) ltac:(lia)) as Hmod.
  assert (Hm : 0 <= Z.land c 0x007fffff < 2 ^ 23) by lia.
  assert (He : 0 <= Z.shiftr c 24 <= 255).
  { rewrite Z.shiftr_div_pow2 by lia. split; [apply Z.div_pos; lia|].
    assert (c / 2 ^ 24 < 256) by (apply Z.div_lt_upper_bound; lia). lia. }
  rewrite (compactOf_fields c), CompactToBig_compactOf by exact Hm.
  apply decoded_reencodes; assumption.
Qed.

Lemma decode_encode_decode_witness :
  0 <= 0x04000001 < 2 ^ 32 /\
  BigToCompact (CompactToBig 0x04000001) <> 0x04000001 /\
  CompactToBig (BigToCompact (CompactToBig 0x04000001))
  = CompactToBig 0x04000001.
Proof.
  assert (H : 0 <= 0x04000001 < 2 ^ 32) by (split; [discriminate|reflexivity]).
  split; [exact H|]. split; [vm_compute; discriminate|].
  exact (decode_encode_decode 0x04000001 H).
Defined.

(** ** Further facts about the codec and the work *)

(** X5.  Encoding never loosens a target: for every integer, also a
    negative one and one too large for the exponent byte, what the encoded
    value decodes to is at most the integer, or at most 0 when the integer
    is negative. *)
Theorem BigToCompact_never_raises (n : Z) :
  CompactToBig (BigToCompact n) <= Z.max n 0
  /\ (n < 0 -> Z.testbit (BigToCompact n) 23 = true).
Proof.
  split; [apply CompactToBig_BigToCompact_le|].
  intros Hneg. unfold BigToCompact.
  destruct (Z.eqb_spec n 0) as [E0|_]; [lia|].
  destruct (negb (Z.land _ 0x00800000 =? 0));
    (destruct (Z.ltb_spec n 0) as [_|Hge]; [|lia]);
    rewrite Z.lor_spec; change 0x00800000 with (2 ^ 23);
    rewrite Z.pow2_bits_true by lia; apply orb_true_r.
Qed.

Lemma BigToCompact_never_raises_witness :
  - 2 ^ 40 < 0
  /\ CompactToBig (BigToCompact (- 2 ^ 40)) <= 0
  /\ Z.testbit (BigToCompact (- 2 ^ 40)) 23 = true.
Proof.
  split; [reflexivity|].
  destruct (BigToCompact_never_raises (- 2 ^ 40)) as [Hle Hbit].
  split; [exact Hle|]. apply Hbit. reflexivity.
Defined.

Lemma scaled_range (m e : Z) :
  0 <= e <= 255 -> 0 <= m < 2 ^ 23 -> 0 <= scaled m e < 2 ^ 2039.
Proof.
  intros He Hm. split; [apply scaled_nonneg; lia|].
  pose proof (scaled_mono_exponent m e 255 ltac:(lia) ltac:(lia)) as H.
  assert (H255 : scaled m 255 = m * 2 ^ 2016).
  { unfold scaled. change (255 <=? 3) with false. cbv iota.
    change (8 * (255 - 3)) with 2016. apply Z.shiftl_mul_pow2. lia. }
  change (2 ^ 2039) with (2 ^ 23 * 2 ^ 2016). nia.
Qed.

(** X6.  What a 32-bit compact value can decode to.  The magnitude is
    below [2 ^ 2039]; the sign bit alone decides the sign, and setting it
    negates the target; an exponent byte of 0 decodes to 0 whatever the
    mantissa. *)
Theorem CompactToBig_sign_and_range (c : Z) :
  0 <= c < 2 ^ 32 ->
  - 2 ^ 2039 < CompactToBig c < 2 ^ 2039
  /\ (Z.testbit c 23 = true -> CompactToBig c <= 0)
  /\ (Z.testbit c 23 = false ->
      0 <= CompactToBig c
      /\ CompactToBig (Z.lor c 0x00800000) = - CompactToBig c)
  /\ (Z.shiftr c 24 = 0 -> CompactToBig c = 0).
Proof.
  intros Hc.
  pose proof (mantissa_mask c) as Hmask.
  pose proof (Z.mod_pos_bound c (2 ^ 23) ltac:(lia)) as Hmod.
  assert (Hm : 0 <= Z.land c 0x007fffff < 2 ^ 23) by lia.
  assert (He : 0 <= Z.shiftr c 24 <= 255).
  { rewrite Z.shiftr_div_pow2 by lia. split; [apply Z.div_pos; lia|].
    assert (c / 2 ^ 24 < 256) by (apply Z.div_lt_upper_bound; lia). lia. }
  pose proof (scaled_range _ _ He Hm) as Hs.
  assert (Hdec : CompactToBig c
                 = if Z.testbit c 23
                   then - scaled (Z.land c 0x007fffff) (Z.shiftr c 24)
                   else scaled (Z.land c 0x007fffff) (Z.shiftr c 24)).
  { rewrite (compactOf_fields c) at 1. apply CompactToBig_compactOf. exact Hm. }
  rewrite Hdec. split; [destruct (Z.testbit c 23); lia|].
  split; [intros ->; lia|]. split.
  - intros Hbit. rewrite Hbit. split; [lia|].
    rewrite lor_sign_bit by exact Hbit.
    rewrite (compactOf_fields c) at 1. rewrite Hbit.
    replace (compactOf (Z.shiftr c 24) false (Z.land c 0x007fffff) + 2 ^ 23)
      with (compactOf (Z.shiftr c 24) true (Z.land c 0x007fffff))
      by (unfold compactOf; lia).
    apply CompactToBig_compactOf. exact Hm.
  - intros E0. rewrite E0. unfold scaled. change (0 <=? 3) with true. cbv iota.
    change (8 * (3 - 0)) with 24.
    rewrite Z.shiftr_div_pow2, Z.div_small by lia.
    destruct (Z.testbit c 23); reflexivity.
Qed.

Lemma CompactToBig_sign_and_range_witness :
  0 <= 0x1c0ffff0 < 2 ^ 32 /\ Z.testbit 0x1c0ffff0 23 = false /\
  CompactToBig (Z.lor 0x1c0ffff0 0x00800000) = - CompactToBig 0x1c0ffff0.
Proof.
  assert (H : 0 <= 0x1c0ffff0 < 2 ^ 32) by (split; [discriminate|reflexivity]).
  assert (Hb : Z.testbit 0x1c0ffff0 23 = false) by reflexivity.
  split; [exact H|]. split; [exact Hb|].
  exact (proj2 (proj1 (proj2 (proj2 (CompactToBig_sign_and_range _ H))) Hb)).
Defined.

(** X7.  The work is at most [2 ^ 255], and it is 0 exactly for the
    targets that are not positive and for those of [2 ^ 256] or more. *)
Theorem CalcWork_zero_iff (c : Z) :
  CalcWork c <= 2 ^ 255
  /\ (CalcWork c = 0 <-> CompactToBig c <= 0 \/ 2 ^ 256 <= CompactToBig c).
Proof.
  destruct (Z_lt_le_dec 0 (CompactToBig c)) as [Hpos|Hnp].
  - rewrite CalcWork_positive_target by exact Hpos. split.
    + apply Z.div_le_upper_bound; [lia|].
      change (2 ^ 256) with (2 * 2 ^ 255).
      apply Z.mul_le_mono_nonneg_r; lia.
    + rewrite Z.div_small_iff by lia. lia.
  - assert (E : CalcWork c = 0).
    { unfold CalcWork. cbv zeta.
      destruct (Z.leb_spec (CompactToBig c) 0); [reflexivity|lia]. }
    rewrite E. split; [lia|]. split; auto.
Qed.

(** ** What the scan has measured *)

Lemma index_In {A : Type} (s : list A) (k : Z) (a : A) :
  index s k = Ok a -> In a s.
Proof.
  unfold index. destruct (_ || _); [discriminate|].
  destruct (nth_error s (Z.to_nat k)) eqn:E; [|discriminate].
  intros H; injection H as <-. eapply nth_error_In. exact E.
Qed.

(** One step of the moving average stays between the old average and the
    new sample. *)
Lemma average_step_between (lo hi prev x i : Z) :
  1 <= i -> lo <= prev <= hi -> lo <= x <= hi ->
  lo <= (x - prev) / i + prev <= hi.
Proof.
  intros Hi Hp Hx.
  pose proof (Z.div_mod (x - prev) i ltac:(lia)) as Hd.
  pose proof (Z.mod_pos_bound (x - prev) i ltac:(lia)) as Hm.
  destruct (Z_le_gt_dec 0 (x - prev)) as [Hge|Hlt].
  - assert (0 <= (x - prev) / i) by (apply Z.div_pos; lia). nia.
  - assert ((x - prev) / i < 0) by (apply Z.div_lt_upper_bound; lia). nia.
Qed.

Lemma window_targets_bounded (headers : list BlockHeader) :
  exists lo hi, forall h, In h headers -> lo <= CompactToBig (Bits h) <= hi.
Proof.
  induction headers as [|h0 t [lo [hi IH]]].
  - exists 0, 0. intros h [].
  - exists (Z.min lo (CompactToBig (Bits h0))),
           (Z.max hi (CompactToBig (Bits h0))).
    intros h [<-|Hin]; [lia|]. specialize (IH h Hin). lia.
Qed.

Section ScanInvariant.

Variable Pow : float -> float -> float.
Variable headers : list BlockHeader.
Variable p : Params.
Variable newest : BlockHeader.
Variables lo hi ch0 : Z.

Hypothesis start_height : minBlocks <= ch0 < 2 ^ 31.
Hypothesis targets_bounded :
  forall h, In h headers -> lo <= CompactToBig (Bits h) <= hi.

Lemma scanBody_invariant (i : Z) (s : ScanState) (f : flow) :
  1 <= i <= maxBlocks -> 0 < currentHeight s ->
  beforePass headers p newest lo hi ch0 i s ->
  scanBody Pow headers p i s = Ok f ->
  sampled headers p newest lo hi i (flowState f)
  /\ match f with
     | Break _ => minBlocks <= i
     | Continue s' => beforePass headers p newest lo hi ch0 (i + 1) s'
     end.
Proof.
  intros Hi Hch [Hidx [Hcur [Hlast [Hh [Hbs Hprev]]]]].
  assert (Hbs' : int64 (blocksScanned s + 1) = i).
  { rewrite Hbs. replace (i - 1 + 1) with i by lia.
    apply int64_small. unfold maxBlocks in Hi. lia. }
  assert (Hx : lo <= CompactToBig (Bits (currentBlock s)) <= hi)
    by (apply targets_bounded; eapply index_In; exact Hcur).
  (* the average after this pass *)
  assert (Havg : exists avg,
             (if i =? 1 then Ok (CompactToBig (Bits (currentBlock s)))
              else
                do difference <-
                  bigDiv (CompactToBig (Bits (currentBlock s))
                          - previousDifficultyAverage s) i ;;
                Ok (difference + previousDifficultyAverage s)) = Ok avg
             /\ lo <= avg <= hi).
  { destruct (Z.eqb_spec i 1) as [->|Hne]; [eauto|].
    destruct Hprev as [Hone|[_ [Hb [Hpp _]]]]; [lia|].
    unfold bigDiv, euclidQuo.
    destruct (Z.eqb_spec i 0) as [H0|_]; [lia|].
    destruct (Z.ltb_spec 0 i) as [_|H0]; [|lia].
    cbn [bind]. eexists. split; [reflexivity|].
    rewrite Hpp. apply average_step_between; lia. }
  destruct Havg as [avg [Eavg Hb]].
  assert (Hold : index headers (Z.of_nat (length headers) - 1 - i)
                 = Ok (currentBlock s)).
  { rewrite <- Hcur, Hidx. f_equal. lia. }
  unfold scanBody. cbv zeta. rewrite Eavg, Hbs', Hlast. cbn [bind].
  assert (Hsampled : forall s',
             blocksScanned s' = i -> difficultyAverage s' = avg ->
             previousDifficultyAverage s' = avg -> lastSolved s' = newest ->
             actualRate s' = elapsedSince newest (currentBlock s) ->
             targetRate s'
             = int64 (int64_of_float (Seconds (TargetTimePerBlock p)) * i) ->
             sampled headers p newest lo hi i s').
  { intros s' H1 H2 H3 H4 H5 H6. unfold sampled.
    rewrite H1, H2, H3, H4, H6. repeat split; try lia.
    exists (currentBlock s). split; [exact Hold|exact H5]. }
  destruct (_ && outsideEventHorizon _ _ _) eqn:Eout.
  - intros H; injection H as <-. split.
    + apply Hsampled; reflexivity.
    + apply andb_true_iff in Eout. destruct Eout as [Eout _].
      apply Z.leb_le in Eout. exact Eout.
  - destruct (Z.leb_spec (currentHeight s) 1) as [Hle|Hgt].
    + intros H; injection H as <-. split.
      * apply Hsampled; reflexivity.
      * lia.
    + destruct (index headers (Z.of_nat (length headers) + (idx s - 1)))
        as [cb|e] eqn:Ecb; cbn [bind]; [|discriminate].
      intros H; injection H as <-. split.
      * apply Hsampled; reflexivity.
      * unfold beforePass. cbn [idx currentBlock lastSolved currentHeight
                                 blocksScanned].
        rewrite (int32_small (currentHeight s - 1)) by lia.
        split; [lia|]. split; [exact Ecb|]. split; [reflexivity|].
        split; [lia|]. split; [lia|]. right.
        replace (i + 1 - 1) with i by lia.
        apply Hsampled; reflexivity.
Qed.

Lemma scanLoop_invariant (bound : nat) :
  forall (i : Z) (s sf : ScanState),
    1 <= i <= maxBlocks + 1 ->
    maxBlocks + 2 - i <= Z.of_nat bound ->
    beforePass headers p newest lo hi ch0 i s ->
    scanLoop Pow headers p bound i s = Ok sf ->
    exists k, minBlocks <= k <= maxBlocks
              /\ sampled headers p newest lo hi k sf.
Proof.
  induction bound as [|b IH]; intros i s sf Hi Hb Hpre.
  - change (Z.of_nat 0) with 0 in Hb. lia.
  - cbn [scanLoop].
    assert (Hdone : 1 < i -> sampled headers p newest lo hi (i - 1) s).
    { intros H1. destruct Hpre as [_ [_ [_ [_ [_ [H|H]]]]]]; [lia|exact H]. }
    assert (Hh : currentHeight s = ch0 - (i - 1)) by apply Hpre.
    destruct (Z.ltb_spec 0 (currentHeight s)) as [Hpos|Hnp]; cbn [negb].
    + destruct (Z.ltb_spec maxBlocks i) as [Hmax|Hle].
      * intros H; injection H as <-. exists (i - 1).
        split; [unfold minBlocks, maxBlocks in *; lia|].
        apply Hdone. unfold maxBlocks in *. lia.
      * destruct (scanBody Pow headers p i s) as [f|e] eqn:Ef; cbn [bind];
          [|discriminate].
        destruct (scanBody_invariant i s f ltac:(lia) Hpos Hpre Ef)
          as [Hs Hf].
        destruct f as [s'|s'].
        -- intros H; injection H as <-. exists i. split; [lia|exact Hs].
        -- apply IH; [lia|lia|exact Hf].
    + intros H; injection H as <-. exists (i - 1).
      split; [unfold minBlocks, maxBlocks in *; lia|].
      apply Hdone. unfold minBlocks in *. lia.
Qed.

End ScanInvariant.

(** With [height - 1 >= 144], where the scan of a window ends. *)
Lemma scan_result_sampled
    (Pow : float -> float -> float) (headers : list BlockHeader) (p : Params)
    (lo hi height : Z) (s0 s : ScanState) :
  minBlocks <= int32 (height - 1) ->
  (forall h, In h headers -> lo <= CompactToBig (Bits h) <= hi) ->
  scanInit headers height = Ok s0 ->
  scanLoop Pow headers p (Z.to_nat maxBlocks + 1) 1 s0 = Ok s ->
  exists newest k,
    index headers (Z.of_nat (length headers) - 2) = Ok newest
    /\ minBlocks <= k <= maxBlocks
    /\ sampled headers p newest lo hi k s.
Proof.
  intros Hh Hbits Hinit Hloop.
  unfold scanInit in Hinit. cbv zeta in Hinit.
  destruct (index headers (Z.of_nat (length headers) + -2)) as [newest|e]
    eqn:En; cbn [bind] in Hinit; [|discriminate].
  injection Hinit as <-.
  assert (En' : index headers (Z.of_nat (length headers) - 2) = Ok newest).
  { rewrite <- En. f_equal. }
  assert (Hr : minBlocks <= int32 (height - 1) < 2 ^ 31).
  { split; [exact Hh|]. unfold int32, wrapS. change (2 ^ (32 - 1)) with (2 ^ 31).
    pose proof (Z.mod_pos_bound (height - 1 + 2 ^ 31) (2 ^ 32) eq_refl). lia. }
  match type of Hloop with
  | scanLoop _ _ _ _ _ ?st = _ =>
      destruct (scanLoop_invariant Pow headers p newest lo hi
                  (int32 (height - 1)) Hr Hbits
                  (Z.to_nat maxBlocks + 1) 1 st s) as [k [Hk Hs]]
  end.
  - unfold maxBlocks. lia.
  - change (Z.of_nat (Z.to_nat maxBlocks + 1)) with 4033. unfold maxBlocks. lia.
  - unfold beforePass. cbn [idx currentBlock lastSolved currentHeight
                             blocksScanned].
    split; [reflexivity|]. split; [exact En|]. split; [reflexivity|].
    split; [lia|]. split; [reflexivity|]. left. reflexivity.
  - exact Hloop.
  - exists newest, k. auto.
Qed.

Lemma rawNewTarget_inv
    (Pow : float -> float -> float) (headers : list BlockHeader) (p : Params)
    (height t : Z) :
  rawNewTarget Pow headers p height = Ok t ->
  exists s0 s,
    scanInit headers height = Ok s0
    /\ scanLoop Pow headers p (Z.to_nat maxBlocks + 1) 1 s0 = Ok s
    /\ scaledTarget s = Ok t.
Proof.
  unfold rawNewTarget.
  destruct (scanInit headers height) as [s0|e] eqn:E0; cbn [bind];
    [|discriminate].
  destruct (scanLoop Pow headers p (Z.to_nat maxBlocks + 1) 1 s0) as [s|e]
    eqn:E1; cbn [bind]; [|discriminate].
  intros H. exists s0, s. auto.
Qed.

Lemma scaledTarget_value (s : ScanState) (t : Z) :
  scaledTarget s = Ok t ->
  t = if negb (actualRate s =? 0) && negb (targetRate s =? 0)
      then euclidQuo (difficultyAverage s * actualRate s) (targetRate s)
      else difficultyAverage s.
Proof.
  unfold scaledTarget. cbv zeta.
  destruct (negb (actualRate s =? 0)); cbn [andb];
    [|intros H; injection H as <-; reflexivity].
  destruct (Z.eqb_spec (targetRate s) 0) as [E|E]; cbn [negb].
  - intros H; injection H as <-. reflexivity.
  - unfold bigDiv. destruct (Z.eqb_spec (targetRate s) 0) as [E'|_]; [lia|].
    intros H; injection H as <-. reflexivity.
Qed.

Lemma rawNewTarget_measured
    (Pow : float -> float -> float) (headers : list BlockHeader) (p : Params)
    (height t : Z) :
  minBlocks <= int32 (height - 1) ->
  rawNewTarget Pow headers p height = Ok t ->
  exists k avg newest oldest,
    minBlocks <= k <= maxBlocks
    /\ index headers (Z.of_nat (length headers) - 2) = Ok newest
    /\ index headers (Z.of_nat (length headers) - 1 - k) = Ok oldest
    /\ (forall lo hi,
           (forall h, In h headers -> lo <= CompactToBig (Bits h) <= hi) ->
           lo <= avg <= hi)
    /\ t = (let actualRate := elapsedSince newest oldest in
            let targetRate :=
              int64 (int64_of_float (Seconds (TargetTimePerBlock p)) * k) in
            if negb (actualRate =? 0) && negb (targetRate =? 0)
            then euclidQuo (avg * actualRate) targetRate
            else avg).
Proof.
  intros Hh Hraw.
  destruct (rawNewTarget_inv Pow headers p height t Hraw)
    as [s0 [s [Hinit [Hloop Ht]]]].
  destruct (window_targets_bounded headers) as [lo0 [hi0 Hb0]].
  destruct (scan_result_sampled Pow headers p lo0 hi0 height s0 s
              Hh Hb0 Hinit Hloop)
    as [newest [k [Hn [Hk [Hbs [_ [_ [_ [[oldest [Ho Ha]] Hr]]]]]]]]].
  exists k, (difficultyAverage s), newest, oldest.
  split; [exact Hk|]. split; [exact Hn|]. split; [exact Ho|]. split.
  - intros lo hi Hb.
    destruct (scan_result_sampled Pow headers p lo hi height s0 s
                Hh Hb Hinit Hloop) as [_ [_ [_ [_ [_ [Havg _]]]]]].
    exact Havg.
  - cbv zeta. rewrite <- Ha, <- Hr. apply scaledTarget_value. exact Ht.
Qed.

(** X8.  What a scanning call computes before the clamp.  It has averaged
    [k] samples, [minBlocks <= k <= maxBlocks]; the average lies between
    the smallest and the largest decoded target of the window; the elapsed
    time runs from the [k]-th sample back to the first, [headers[len-2]],
    so it spans [k - 1] block intervals, while the target time counts [k];
    and the raw target is the average times the one over the other, or
    the average itself when either is zero. *)
Theorem rawNewTarget_formula
    (Pow : float -> float -> float) (headers : list BlockHeader) (p : Params)
    (height t : Z) :
  minBlocks <= int32 (height - 1) ->
  rawNewTarget Pow headers p height = Ok t ->
  exists k avg newest oldest,
    minBlocks <= k <= maxBlocks
    /\ index headers (Z.of_nat (length headers) - 2) = Ok newest
    /\ index headers (Z.of_nat (length headers) - 1 - k) = Ok oldest
    /\ (forall lo hi,
           (forall h, In h headers -> lo <= CompactToBig (Bits h) <= hi) ->
           lo <= avg <= hi)
    /\ t = (let actualRate := elapsedSince newest oldest in
            let targetRate :=
              int64 (int64_of_float (Seconds (TargetTimePerBlock p)) * k) in
            if negb (actualRate =? 0) && negb (targetRate =? 0)
            then euclidQuo (avg * actualRate) targetRate
            else avg).
Proof. apply rawNewTarget_measured. Qed.

Lemma steadyWindow_index (spacing bits : Z) (n : nat) (j : Z) (h : BlockHeader) :
  index (steadyWindow spacing bits n) j = Ok h -> h = headerAt spacing bits j.
Proof.
  unfold index. rewrite steadyWindow_length.
  destruct (Z.ltb_spec j 0) as [Hn|Hn]; [discriminate|].
  destruct (Z.leb_spec (Z.of_nat n) j) as [Hl|Hl]; [discriminate|].
  cbn [orb]. unfold steadyWindow.
  rewrite nth_error_map, nth_error_seq.
  destruct (Nat.ltb_spec (Z.to_nat j) n) as [_|H]; [|lia].
  cbn [option_map Nat.add]. intros E; injection E as <-.
  rewrite Z2Nat.id by lia. reflexivity.
Qed.

Lemma steadyWindow_In (spacing bits : Z) (n : nat) (h : BlockHeader) :
  In h (steadyWindow spacing bits n) -> Bits h = bits.
Proof.
  unfold steadyWindow. rewrite in_map_iff. intros [k [<- _]]. reflexivity.
Qed.

Lemma rawNewTarget_formula_witness :
  minBlocks <= int32 (145 - 1) /\
  exists t k,
    rawNewTarget PowBaseOne (steadyWindow 150 0x1c0ffff0 146) VertcoinParams 145
    = Ok t
    /\ minBlocks <= k <= maxBlocks
    /\ t = euclidQuo (CompactToBig 0x1c0ffff0 * (150 * (k - 1))) (150 * k).
Proof.
  assert (Hh : minBlocks <= int32 (145 - 1)) by (vm_compute; discriminate).
  split; [exact Hh|].
  destruct (rawNewTarget PowBaseOne (steadyWindow 150 0x1c0ffff0 146)
              VertcoinParams 145) as [t|e] eqn:Et;
    [|exfalso; vm_compute in Et; discriminate].
  destruct (rawNewTarget_formula PowBaseOne (steadyWindow 150 0x1c0ffff0 146)
              VertcoinParams 145 t Hh Et)
    as [k [avg [newest [oldest [Hk [Hn [Ho [Havg Ht]]]]]]]].
  exists t, k. split; [reflexivity|]. split; [exact Hk|].
  assert (Ea : avg = CompactToBig 0x1c0ffff0).
  { assert (CompactToBig 0x1c0ffff0 <= avg <= CompactToBig 0x1c0ffff0); [|lia].
    apply Havg. intros h Hin.
    rewrite (steadyWindow_In _ _ _ _ Hin). lia. }
  apply steadyWindow_index in Hn, Ho. subst newest oldest avg.
  rewrite steadyWindow_length in Ht. cbv zeta in Ht.
  change (int64_of_float (Seconds (TargetTimePerBlock VertcoinParams)))
    with 150 in Ht.
  assert (El : elapsedSince (headerAt 150 0x1c0ffff0 (Z.of_nat 146 - 2))
                            (headerAt 150 0x1c0ffff0 (Z.of_nat 146 - 1 - k))
               = 150 * (k - 1)).
  { unfold elapsedSince, headerAt, Unix. cbn [Timestamp]. cbv zeta.
    rewrite !(Z.mul_comm Second), !Z.div_mul by discriminate.
    unfold minBlocks, maxBlocks in Hk.
    rewrite int64_small by lia.
    destruct (Z.ltb_spec (1500000000 + 150 * (Z.of_nat 146 - 2)
                          - (1500000000 + 150 * (Z.of_nat 146 - 1 - k))) 0); lia. }
  rewrite El in Ht.
  unfold minBlocks, maxBlocks in Hk.
  rewrite (int64_small (150 * k)) in Ht by lia.
  destruct (Z.eqb_spec (150 * (k - 1)) 0) as [E|_]; [lia|].
  destruct (Z.eqb_spec (150 * k) 0) as [E|_]; [lia|].
  exact Ht.
Defined.

(** X9.  A chain exactly on schedule is still tightened.  When every
    header of the window has the same difficulty, with a positive target
    [T], and consecutive headers are exactly the target time apart, the raw
    target of a scanning call is [T * (k - 1) / k] for the number [k] of
    samples taken: between [T * 143 / 144] and [T * 4031 / 4032], below [T]. *)
Theorem on_schedule_target_tightens
    (Pow : float -> float -> float) (headers : list BlockHeader) (p : Params)
    (height t bits u0 : Z) :
  minBlocks <= int32 (height - 1) ->
  0 < int64_of_float (Seconds (TargetTimePerBlock p)) < 2 ^ 50 ->
  0 < CompactToBig bits ->
  (forall j h, index headers j = Ok h ->
               Bits h = bits
               /\ Unix (Timestamp h)
                  = u0 + int64_of_float (Seconds (TargetTimePerBlock p)) * j) ->
  rawNewTarget Pow headers p height = Ok t ->
  (exists k, minBlocks <= k <= maxBlocks
             /\ t = CompactToBig bits * (k - 1) / k)
  /\ CompactToBig bits * 143 / 144 <= t <= CompactToBig bits * 4031 / 4032
  /\ t < CompactToBig bits.
Proof.
  intros Hh Hsecs HT Hsteady Hraw.
  destruct (rawNewTarget_measured Pow headers p height t Hh Hraw)
    as [k [avg [newest [oldest [Hk [Hn [Ho [Havg Ht]]]]]]]].
  set (secs := int64_of_float (Seconds (TargetTimePerBlock p))) in *.
  set (T := CompactToBig bits) in *.
  assert (Ea : avg = T).
  { assert (T <= avg <= T); [|lia]. apply Havg. intros h Hin.
    destruct (In_nth_error headers h Hin) as [n Hnth].
    assert (Hi : index headers (Z.of_nat n) = Ok h).
    { unfold index. assert (n < length headers)%nat
        by (apply nth_error_Some; congruence).
      destruct (Z.ltb_spec (Z.of_nat n) 0); [lia|].
      destruct (Z.leb_spec (Z.of_nat (length headers)) (Z.of_nat n)); [lia|].
      cbn [orb]. rewrite Nat2Z.id, Hnth. reflexivity. }
    destruct (Hsteady _ _ Hi) as [-> _]. fold T. lia. }
  unfold minBlocks, maxBlocks in Hk.
  assert (El : elapsedSince newest oldest = secs * (k - 1)).
  { unfold elapsedSince. cbv zeta.
    destruct (Hsteady _ _ Hn) as [_ ->]. destruct (Hsteady _ _ Ho) as [_ ->].
    fold secs.
    replace (u0 + secs * (Z.of_nat (length headers) - 2)
             - (u0 + secs * (Z.of_nat (length headers) - 1 - k)))
      with (secs * (k - 1)) by lia.
    assert (0 <= secs * (k - 1) < 2 ^ 63) by nia.
    rewrite int64_small by lia.
    destruct (Z.ltb_spec (secs * (k - 1)) 0); lia. }
  assert (Er : int64 (secs * k) = secs * k).
  { apply int64_small. assert (0 <= secs * k < 2 ^ 63) by nia. lia. }
  cbv zeta in Ht. rewrite El, Er, Ea in Ht.
  destruct (Z.eqb_spec (secs * (k - 1)) 0) as [E|_]; [nia|].
  destruct (Z.eqb_spec (secs * k) 0) as [E|_]; [nia|].
  cbn [negb andb] in Ht. unfold euclidQuo in Ht.
  destruct (Z.ltb_spec 0 (secs * k)) as [_|H]; [|nia].
  assert (Et : t = T * (k - 1) / k).
  { rewrite Ht.
    replace (T * (secs * (k - 1))) with (secs * (T * (k - 1))) by lia.
    apply Z.div_mul_cancel_l; lia. }
  split; [exists k; split; [unfold minBlocks, maxBlocks; lia|exact Et]|].
  pose proof (Z.mul_div_le (T * (k - 1)) k ltac:(lia)) as Hq.
  pose proof (Z.mul_div_le (T * 143) 144 ltac:(lia)) as Hq1.
  assert (H1 : T * 143 / 144 <= T * (k - 1) / k).
  { apply Z.div_le_lower_bound; [lia|]. nia. }
  assert (H2 : T * (k - 1) / k <= T * 4031 / 4032).
  { apply Z.div_le_lower_bound; [lia|]. nia. }
  assert (H3 : T * 4031 / 4032 < T)
    by (apply Z.div_lt_upper_bound; lia).
  lia.
Qed.

Lemma on_schedule_target_tightens_witness :
  minBlocks <= int32 (145 - 1) /\
  0 < CompactToBig 0x1c0ffff0 /\
  exists t,
    rawNewTarget PowBaseOne (steadyWindow 150 0x1c0ffff0 146) VertcoinParams 145
    = Ok t
    /\ t < CompactToBig 0x1c0ffff0.
Proof.
  assert (Hh : minBlocks <= int32 (145 - 1)) by (vm_compute; discriminate).
  assert (HT : 0 < CompactToBig 0x1c0ffff0) by reflexivity.
  split; [exact Hh|]. split; [exact HT|].
  destruct (rawNewTarget PowBaseOne (steadyWindow 150 0x1c0ffff0 146)
              VertcoinParams 145) as [t|e] eqn:Et;
    [|exfalso; vm_compute in Et; discriminate].
  exists t. split; [reflexivity|].
  apply (on_schedule_target_tightens PowBaseOne
           (steadyWindow 150 0x1c0ffff0 146) VertcoinParams 145 t
           0x1c0ffff0 1500000000 Hh).
  - split; reflexivity.
  - exact HT.
  - intros j h Hi. apply steadyWindow_index in Hi. subst h.
    split; [reflexivity|].
    unfold headerAt, Unix. cbn [Timestamp].
    rewrite (Z.mul_comm Second), Z.div_mul by discriminate.
    reflexivity.
  - exact Et.
Defined.

(** X10.  A stalled clock leaves the average alone.  When all headers of
    the window carry the same timestamp (to the second), no time has
    elapsed, the raw target of a scanning call is the plain average, and
    so lies between the smallest and the largest decoded target of the
    window; with one difficulty throughout, it is that difficulty's
    target. *)
Theorem stalled_clock_target
    (Pow : float -> float -> float) (headers : list BlockHeader) (p : Params)
    (height t lo hi : Z) :
  minBlocks <= int32 (height - 1) ->
  (forall h1 h2, In h1 headers -> In h2 headers ->
                 Unix (Timestamp h1) = Unix (Timestamp h2)) ->
  (forall h, In h headers -> lo <= CompactToBig (Bits h) <= hi) ->
  rawNewTarget Pow headers p height = Ok t ->
  lo <= t <= hi.
Proof.
  intros Hh Hclock Hb Hraw.
  destruct (rawNewTarget_measured Pow headers p height t Hh Hraw)
    as [k [avg [newest [oldest [Hk [Hn [Ho [Havg Ht]]]]]]]].
  assert (El : elapsedSince newest oldest = 0).
  { unfold elapsedSince. cbv zeta.
    rewrite (Hclock newest oldest) by (eapply index_In; eassumption).
    rewrite Z.sub_diag. reflexivity. }
  cbv zeta in Ht. rewrite El in Ht. cbn [Z.eqb negb andb] in Ht.
  subst t. apply Havg. exact Hb.
Qed.

Lemma stalled_clock_target_witness :
  minBlocks <= int32 (145 - 1) /\
  rawNewTarget PowBaseOne (steadyWindow 0 0x1c0ffff0 146) VertcoinParams 145
  = Ok (CompactToBig 0x1c0ffff0).
Proof.
  assert (Hh : minBlocks <= int32 (145 - 1)) by (vm_compute; discriminate).
  split; [exact Hh|].
  destruct (rawNewTarget PowBaseOne (steadyWindow 0 0x1c0ffff0 146)
              VertcoinParams 145) as [t|e] eqn:Et;
    [|exfalso; vm_compute in Et; discriminate].
  f_equal.
  assert (CompactToBig 0x1c0ffff0 <= t <= CompactToBig 0x1c0ffff0); [|lia].
  apply (stalled_clock_target PowBaseOne (steadyWindow 0 0x1c0ffff0 146)
           VertcoinParams 145 t _ _ Hh).
  - intros h1 h2 H1 H2. unfold steadyWindow in H1, H2.
    apply in_map_iff in H1, H2.
    destruct H1 as [k1 [<- _]]. destruct H2 as [k2 [<- _]]. reflexivity.
  - intros h Hin. rewrite (steadyWindow_In _ _ _ _ Hin). lia.
  - exact Et.
Defined.

(** ** The returned difficulty against the ceiling *)

Lemma elapsedSince_nonneg (newest oldest : BlockHeader) :
  0 <= elapsedSince newest oldest.
Proof.
  unfold elapsedSince. cbv zeta.
  destruct (Z.ltb_spec (int64 (Unix (Timestamp newest) - Unix (Timestamp oldest))) 0);
    lia.
Qed.

(** X11.  With parameters whose [PowLimitBits] is [PowLimit] encoded, a
    positive target time and a window without negative targets, what the
    calculator returns is never above [PowLimitBits] as a number, is 0 or
    in normalised form, and decodes to a target between 0 and
    [PowLimit]. *)
Theorem calcDiffAdjustKGW_within_ceiling
    (Pow : float -> float -> float) (headers : list BlockHeader) (p : Params)
    (height c : Z) (err : option error) :
  0 < PowLimit p < 2 ^ 2039 ->
  PowLimitBits p = BigToCompact (PowLimit p) ->
  0 < int64_of_float (Seconds (TargetTimePerBlock p)) < 2 ^ 50 ->
  (forall h, In h headers -> 0 <= CompactToBig (Bits h)) ->
  calcDiffAdjustKGW Pow headers p height = Ok (c, err) ->
  0 <= c <= PowLimitBits p
  /\ (c = 0 \/ normalised c = true)
  /\ 0 <= CompactToBig c <= PowLimit p.
Proof.
  intros Hlim Hbits Hsecs Hpos.
  assert (Hgood : forall n, 0 < n <= PowLimit p ->
            0 <= BigToCompact n <= PowLimitBits p
            /\ (BigToCompact n = 0 \/ normalised (BigToCompact n) = true)
            /\ 0 <= CompactToBig (BigToCompact n) <= PowLimit p).
  { intros n Hn.
    destruct (encoded_normal_form n ltac:(lia)) as [Hr [Hnorm _]].
    destruct (encoded_precision n ltac:(lia)) as [Hd _].
    destruct (encoded_order n (PowLimit p) ltac:(lia) ltac:(lia) ltac:(lia))
      as [Hord _].
    rewrite Hbits. repeat split; try lia. right. exact Hnorm. }
  unfold calcDiffAdjustKGW.
  destruct (Z.ltb_spec (int32 (height - 1)) minBlocks) as [Hy|Hs].
  - intros H; injection H as <- _. rewrite Hbits.
    destruct (Hgood (PowLimit p) ltac:(lia)) as [H1 [H2 H3]].
    rewrite Hbits in H1. auto.
  - destruct (rawNewTarget Pow headers p height) as [t|e] eqn:Et; cbn [bind];
      [|discriminate].
    intros H; injection H as <- _.
    destruct (rawNewTarget_measured Pow headers p height t Hs Et)
      as [k [avg [newest [oldest [Hk [Hn [Ho [Havg Ht]]]]]]]].
    destruct (window_targets_bounded headers) as [lo0 [hi0 Hb0]].
    assert (Ha : 0 <= avg).
    { apply (Havg 0 (Z.max hi0 0)). intros h Hin.
      specialize (Hpos h Hin). specialize (Hb0 h Hin). lia. }
    pose proof (elapsedSince_nonneg newest oldest) as He.
    unfold minBlocks, maxBlocks in Hk.
    assert (Er : int64 (int64_of_float (Seconds (TargetTimePerBlock p)) * k)
                 = int64_of_float (Seconds (TargetTimePerBlock p)) * k).
    { apply int64_small.
      assert (0 <= int64_of_float (Seconds (TargetTimePerBlock p)) * k < 2 ^ 63)
        by nia. lia. }
    assert (Ht0 : 0 <= t).
    { rewrite Ht. cbv zeta. rewrite Er.
      destruct (negb (elapsedSince newest oldest =? 0) && _); [|exact Ha].
      unfold euclidQuo.
      destruct (Z.ltb_spec 0 (int64_of_float (Seconds (TargetTimePerBlock p)) * k))
        as [Hr|Hr]; [|nia].
      apply Z.div_pos; nia. }
    unfold clampTarget. destruct (Z.ltb_spec (PowLimit p) t) as [Hc|Hc].
    + apply Hgood. lia.
    + destruct (Z.eq_dec t 0) as [->|Hnz].
      * change (BigToCompact 0) with 0. change (CompactToBig 0) with 0.
        destruct (Hgood (PowLimit p) ltac:(lia)) as [H1 _].
        split; [lia|]. split; [left; reflexivity|lia].
      * apply Hgood. lia.
Qed.

Lemma calcDiffAdjustKGW_within_ceiling_witness :
  calcDiffAdjustKGW PowBaseOne (steadyWindow 300 0x1e0fffff 146) VertcoinParams 145
  = Ok (0x1e0fffff, None)
  /\ 0 <= 0x1e0fffff <= PowLimitBits VertcoinParams
  /\ CompactToBig 0x1e0fffff <= PowLimit VertcoinParams.
Proof.
  assert (Hc : calcDiffAdjustKGW PowBaseOne (steadyWindow 300 0x1e0fffff 146)
                                 VertcoinParams 145 = Ok (0x1e0fffff, None))
    by (vm_compute; reflexivity).
  split; [exact Hc|].
  destruct (calcDiffAdjustKGW_within_ceiling PowBaseOne
              (steadyWindow 300 0x1e0fffff 146) VertcoinParams 145
              0x1e0fffff None) as [H1 [_ H3]].
  - split; reflexivity.
  - reflexivity.
  - split; reflexivity.
  - intros h Hin. rewrite (steadyWindow_In _ _ _ _ Hin). discriminate.
  - exact Hc.
  - split; [exact H1|]. exact (proj2 H3).
Defined.

(** ** The whole run of the driver *)

Lemma int64_add_idem (x y : Z) : int64 (int64 x + y) = int64 (x + y).
Proof.
  unfold int64, wrapS. change (2 ^ (64 - 1)) with (2 ^ 63).
  f_equal.
  replace ((x + 2 ^ 63) mod 2 ^ 64 - 2 ^ 63 + y + 2 ^ 63)
    with ((x + 2 ^ 63) mod 2 ^ 64 + y) by lia.
  rewrite Zplus_mod_idemp_l. f_equal. lia.
Qed.

(** What a completed pass leaves. *)
Lemma simStep_Ok (Pow : float -> float -> float) (hashRate : Z)
    (st st' : SimState) :
  snd (simStep Pow hashRate st) = Ok st' ->
  exists t row h0 tl,
    timeToBlock hashRate (diff st) = Ok t
    /\ fst (simStep Pow hashRate st) = [row]
    /\ rowHeight row = int64 (height st + 1)
    /\ rowDiff row = diff st /\ rowTime row = t
    /\ height st' = int64 (height st + 1)
    /\ totalSeconds st' = int64 (totalSeconds st + t)
    /\ lastBlocks st = h0 :: tl
    /\ lastBlocks st'
       = tl ++ [{| Timestamp := TimeAdd (Timestamp (bestHeader st))
                                        (int64 (Second * t));
                   Bits := diff st |}]
    /\ calcDiffAdjustKGW Pow (lastBlocks st') VertcoinParams
                         (int32 (height st')) = Ok (diff st', None).
Proof.
  unfold simStep.
  destruct (timeToBlock hashRate (diff st)) as [t|e]; cbn [fst snd];
    [|discriminate].
  destruct (lastBlocks st) as [|h0 tl]; cbn [sliceFrom1 bind]; [discriminate|].
  destruct (index _ _) as [b|e]; cbn [bind]; [|discriminate].
  destruct (calcDiffAdjustKGW _ _ _ _) as [[d err]|e] eqn:Ec; cbn [bind];
    [|discriminate].
  pose proof (calcDiffAdjustKGW_error_nil _ _ _ _ _ _ Ec) as ->.
  intros H; injection H as <-.
  cbn [height totalSeconds lastBlocks diff].
  eexists _, _, h0, tl. repeat split; try reflexivity. exact Ec.
Qed.

Lemma int64_range (x : Z) : - 2 ^ 63 <= int64 x < 2 ^ 63.
Proof.
  unfold int64, wrapS. change (2 ^ (64 - 1)) with (2 ^ 63).
  pose proof (Z.mod_pos_bound (x + 2 ^ 63) (2 ^ 64) eq_refl). lia.
Qed.

Lemma simulate_run (Pow : float -> float -> float) (hashRate : Z) (n : nat) :
  forall st : SimState,
    hashRate <> 0 ->
    maxBlocks + 2 <= Z.of_nat (length (lastBlocks st)) ->
    - 2 ^ 63 <= height st -> height st + Z.of_nat n < 2 ^ 63 ->
    - 2 ^ 63 <= totalSeconds st < 2 ^ 63 ->
    exists rows st',
      simulate Pow hashRate n st = (rows, Ok st')
      /\ length rows = n
      /\ height st' = height st + Z.of_nat n
      /\ length (lastBlocks st') = length (lastBlocks st)
      /\ (forall k row, nth_error rows k = Some row ->
                        rowHeight row = height st + Z.of_nat k + 1)
      /\ totalSeconds st' = int64 (totalSeconds st + sumTimes rows).
Proof.
  induction n as [|n IH]; intros st Hh Hlen Hlo Hhi Htot.
  - exists [], st. cbn [simulate length sumTimes fold_right].
    repeat split; try lia.
    + intros k row Hk. destruct k; discriminate.
    + rewrite Z.add_0_r. symmetry. apply int64_small. exact Htot.
  - destruct (simStep_total Pow hashRate st Hh Hlen) as [st1 [Hs1 Hl1]].
    destruct (simStep_Ok Pow hashRate st st1 Hs1)
      as [t [row [h0 [tl [Ht [Hrow [Hrh [Hrd [Hrt [Hh1 [Ht1 _]]]]]]]]]]].
    rewrite int64_small in Hh1, Hrh by lia.
    assert (Hlen1 : maxBlocks + 2 <= Z.of_nat (length (lastBlocks st1)))
      by (rewrite Hl1; exact Hlen).
    assert (Htot1 : - 2 ^ 63 <= totalSeconds st1 < 2 ^ 63)
      by (rewrite Ht1; apply int64_range).
    destruct (IH st1 Hh Hlen1 ltac:(lia) ltac:(lia) Htot1)
      as [rows [st' [Hsim [Hn [Hh' [Hl' [Hrows Htot']]]]]]].
    exists (row :: rows), st'. cbn [simulate].
    destruct (simStep Pow hashRate st) as [rows0 r0].
    cbn [fst snd] in Hrow, Hs1. subst rows0 r0. rewrite Hsim.
    cbn [app length]. repeat split; try lia.
    + intros k row' Hk. destruct k as [|k]; cbn [nth_error] in Hk.
      * injection Hk as <-. lia.
      * rewrite (Hrows k row' Hk). lia.
    + rewrite Htot', Ht1. cbn [sumTimes fold_right]. fold (sumTimes rows).
      rewrite int64_add_idem, Hrt. f_equal. lia.
Qed.

(** X12.  On a full window, with a non-zero hash rate and heights that fit
    an [int64], a run of [n] passes completes: it prints exactly [n] rows,
    for the consecutive heights after the starting one, keeps the window's
    length, and accumulates the rows' seconds (as an [int64]). *)
Theorem simulate_completes
    (Pow : float -> float -> float) (hashRate : Z) (n : nat) (st : SimState) :
  hashRate <> 0 ->
  maxBlocks + 2 <= Z.of_nat (length (lastBlocks st)) ->
  - 2 ^ 63 <= height st -> height st + Z.of_nat n < 2 ^ 63 ->
  - 2 ^ 63 <= totalSeconds st < 2 ^ 63 ->
  exists rows st',
    simulate Pow hashRate n st = (rows, Ok st')
    /\ length rows = n
    /\ height st' = height st + Z.of_nat n
    /\ length (lastBlocks st') = length (lastBlocks st)
    /\ (forall k row, nth_error rows k = Some row ->
                      rowHeight row = height st + Z.of_nat k + 1)
    /\ totalSeconds st' = int64 (totalSeconds st + sumTimes rows).
Proof. apply simulate_run. Qed.

Lemma simulate_completes_witness :
  exists rows st',
    simulate PowBaseOne (1000 * 10 ^ 9) 20 (stateAt 0x1c0ffff0) = (rows, Ok st')
    /\ length rows = 20%nat
    /\ height st' = 1050881.
Proof.
  destruct (simulate_completes PowBaseOne (1000 * 10 ^ 9) 20 (stateAt 0x1c0ffff0))
    as [rows [st' [Hs [Hn [Hh _]]]]].
  - discriminate.
  - apply stateAt_window.
  - cbn [stateAt height]. discriminate.
  - cbn [stateAt height]. reflexivity.
  - cbn [stateAt totalSeconds]. split; [discriminate|reflexivity].
  - exists rows, st'. split; [exact Hs|]. split; [exact Hn|].
    rewrite Hh. reflexivity.
Defined.

(** X13.  The difficulty a pass leaves depends on the window and the
    height it started from only, not on the hash rate nor on the
    difficulty being priced: the header the pass appends, the only place
    those two go, is the last of the window, which the retargeting never
    reads.  They reach the difficulty one pass late. *)
Theorem retarget_ignores_appended_block
    (Pow : float -> float -> float) (hashRate1 hashRate2 : Z)
    (sta stb st1 st2 : SimState) :
  lastBlocks sta = lastBlocks stb -> height sta = height stb ->
  snd (simStep Pow hashRate1 sta) = Ok st1 ->
  snd (simStep Pow hashRate2 stb) = Ok st2 ->
  diff st1 = diff st2 /\ height st1 = height st2.
Proof.
  intros Hw Hh H1 H2.
  destruct (simStep_Ok Pow hashRate1 sta st1 H1)
    as [t1 [_ [h1 [tl1 [_ [_ [_ [_ [_ [Hh1 [_ [Hl1 [Hw1 Hc1]]]]]]]]]]]]].
  destruct (simStep_Ok Pow hashRate2 stb st2 H2)
    as [t2 [_ [h2 [tl2 [_ [_ [_ [_ [_ [Hh2 [_ [Hl2 [Hw2 Hc2]]]]]]]]]]]]].
  rewrite Hw, Hl2 in Hl1. injection Hl1 as _ <-.
  split; [|congruence].
  rewrite Hh1, Hh in Hc1. rewrite Hh2 in Hc2.
  rewrite Hw1 in Hc1. rewrite Hw2 in Hc2.
  match type of Hc1 with
  | calcDiffAdjustKGW _ (_ ++ [?a]) _ ?x = _ =>
      match type of Hc2 with
      | calcDiffAdjustKGW _ (_ ++ [?b]) _ _ = _ =>
          assert (Heq : calcDiffAdjustKGW Pow (tl2 ++ [a]) VertcoinParams x
                        = calcDiffAdjustKGW Pow (tl2 ++ [b]) VertcoinParams x)
      end
  end.
  { apply calcDiffAdjustKGW_agree. intros k Hk.
    apply index_ignores_last. lia. }
  rewrite Heq, Hc2 in Hc1. injection Hc1 as ->. reflexivity.
Qed.

Lemma retarget_ignores_appended_block_witness :
  exists st1 st2,
    snd (simStep PowBaseOne (1000 * 10 ^ 9) (stateAt 0x1c0ffff0)) = Ok st1
    /\ snd (simStep PowBaseOne (10 ^ 9) (stateAt 0x1b0404cb)) = Ok st2
    /\ diff st1 = diff st2.
Proof.
  destruct (simStep_total PowBaseOne (1000 * 10 ^ 9) (stateAt 0x1c0ffff0))
    as [st1 [H1 _]]; [discriminate|apply stateAt_window|].
  destruct (simStep_total PowBaseOne (10 ^ 9) (stateAt 0x1b0404cb))
    as [st2 [H2 _]]; [discriminate|apply stateAt_window|].
  exists st1, st2. split; [exact H1|]. split; [exact H2|].
  exact (proj1 (retarget_ignores_appended_block
                  PowBaseOne (1000 * 10 ^ 9) (10 ^ 9)
                  (stateAt 0x1c0ffff0) (stateAt 0x1b0404cb) st1 st2
                  eq_refl eq_refl H1 H2)).
Defined.

(** X14.  The summary line divides by the number of blocks simulated: a
    run of zero (or a negative number of) blocks prints no row and then
    panics on the division; a completed run of [numBlocks >= 1] blocks
    reports [numBlocks], the accumulated seconds and their truncated
    quotient. *)
Theorem simMain_summary
    (Pow : float -> float -> float) (hashRate numBlocks : Z) (st : SimState) :
  (numBlocks <= 0 ->
   simMain Pow hashRate numBlocks st = ([], Panic DivisionByZero))
  /\ (0 < numBlocks ->
      hashRate <> 0 ->
      maxBlocks + 2 <= Z.of_nat (length (lastBlocks st)) ->
      0 <= height st -> height st + numBlocks < 2 ^ 63 ->
      - 2 ^ 63 <= totalSeconds st < 2 ^ 63 ->
      exists rows,
        length rows = Z.to_nat numBlocks
        /\ simMain Pow hashRate numBlocks st
           = (rows,
              Ok (numBlocks,
                  int64 (totalSeconds st + sumTimes rows),
                  int64 (Z.quot (int64 (totalSeconds st + sumTimes rows))
                                numBlocks)))).
Proof.
  split.
  - intros Hn. unfold simMain, simSummary. cbv zeta.
    replace (Z.to_nat numBlocks) with 0%nat by lia.
    cbn [simulate]. rewrite Z.sub_diag. reflexivity.
  - intros Hn Hh Hlen Hlo Hhi Htot.
    destruct (simulate_run Pow hashRate (Z.to_nat numBlocks) st)
      as [rows [st' [Hs [Hl [Hh' [_ [_ Ht']]]]]]]; try assumption; try lia.
    exists rows. split; [exact Hl|].
    unfold simMain, simSummary. cbv zeta. rewrite Hs, Hh', Ht'.
    replace (height st + Z.of_nat (Z.to_nat numBlocks) - height st)
      with numBlocks by lia.
    rewrite (int64_small numBlocks) by lia.
    destruct (Z.eqb_spec numBlocks 0) as [E|_]; [lia|]. reflexivity.
Qed.

Lemma simMain_summary_witness :
  simMain PowBaseOne (1000 * 10 ^ 9) 0 (stateAt 0x1c0ffff0)
  = ([], Panic DivisionByZero)
  /\ exists rows summary,
       simMain PowBaseOne (1000 * 10 ^ 9) 20 (stateAt 0x1c0ffff0)
       = (rows, Ok summary)
       /\ fst (fst summary) = 20.
Proof.
  pose proof (simMain_summary PowBaseOne (1000 * 10 ^ 9) 0 (stateAt 0x1c0ffff0))
    as [H0 _].
  pose proof (simMain_summary PowBaseOne (1000 * 10 ^ 9) 20 (stateAt 0x1c0ffff0))
    as [_ H20].
  split; [apply H0; discriminate|].
  destruct H20 as [rows [_ Hm]].
  - reflexivity.
  - discriminate.
  - apply stateAt_window.
  - cbn [stateAt height]. discriminate.
  - cbn [stateAt height]. reflexivity.
  - cbn [stateAt totalSeconds]. split; [discriminate|reflexivity].
  - eexists rows, _. split; [exact Hm|]. reflexivity.
Defined.

(** ** The printed time and the whole program *)

Lemma bigInt64_range (x : Z) : - 2 ^ 63 <= bigInt64 x < 2 ^ 63.
Proof.
  unfold bigInt64. cbv zeta. destruct (x <? 0); apply int64_range.
Qed.

Lemma simStep_row_fields (Pow : float -> float -> float) (hashRate : Z)
    (st : SimState) (row : Row) :
  In row (fst (simStep Pow hashRate st)) ->
  - 2 ^ 63 <= rowTime row < 2 ^ 63
  /\ rowSeconds row = Z.rem (rowTime row) 60
  /\ rowMinutes row = Z.quot (int64 (rowTime row - rowSeconds row)) 60.
Proof.
  unfold simStep, timeToBlock. cbv zeta.
  destruct (bigDiv (CalcWork (diff st)) hashRate) as [q|e]; cbn [bind fst In].
  - intros [<-|[]]. cbn [rowTime rowSeconds rowMinutes].
    split; [apply bigInt64_range|]. split; reflexivity.
  - intros [].
Qed.

Lemma simulate_row_fields (Pow : float -> float -> float) (hashRate : Z)
    (n : nat) :
  forall (st : SimState) (row : Row),
    In row (fst (simulate Pow hashRate n st)) ->
    - 2 ^ 63 <= rowTime row < 2 ^ 63
    /\ rowSeconds row = Z.rem (rowTime row) 60
    /\ rowMinutes row = Z.quot (int64 (rowTime row - rowSeconds row)) 60.
Proof.
  induction n as [|n IH]; intros st row; [intros []|].
  cbn [simulate].
  pose proof (simStep_row_fields Pow hashRate st row) as Hstep.
  destruct (simStep Pow hashRate st) as [rows [st'|e]].
  - specialize (IH st' row).
    destruct (simulate Pow hashRate n st') as [rows' r]. cbn [fst] in *.
    intros Hin. apply in_app_or in Hin. destruct Hin as [Hin|Hin]; auto.
  - cbn [fst] in *. exact Hstep.
Qed.

(** X15.  The minutes and seconds a row prints always add up to the row's
    time (the subtraction before the division cannot overflow), and for a
    time that is not negative the seconds are between 0 and 59. *)
Theorem row_minutes_and_seconds
    (Pow : float -> float -> float) (hashRate : Z) (numBlocks : nat)
    (st : SimState) (row : Row) :
  In row (fst (simulate Pow hashRate numBlocks st)) ->
  rowMinutes row * 60 + rowSeconds row = rowTime row
  /\ (0 <= rowTime row -> 0 <= rowSeconds row < 60 /\ 0 <= rowMinutes row).
Proof.
  intros Hin.
  destruct (simulate_row_fields Pow hashRate numBlocks st row Hin)
    as [Hr [Hs Hm]].
  pose proof (Z.quot_rem' (rowTime row) 60) as Hqr.
  assert (Hdiff : rowTime row - rowSeconds row = 60 * Z.quot (rowTime row) 60)
    by (rewrite Hs; lia).
  assert (Hq : Z.abs (Z.quot (rowTime row) 60) <= Z.abs (rowTime row)).
  { destruct (Z_le_gt_dec 0 (rowTime row)) as [H|H].
    - pose proof (Z.quot_pos (rowTime row) 60 H ltac:(lia)).
      pose proof (Z.rem_nonneg (rowTime row) 60 ltac:(lia) H). lia.
    - pose proof (Z.quot_opp_l (rowTime row) 60 ltac:(lia)) as Ho.
      pose proof (Z.quot_pos (- rowTime row) 60 ltac:(lia) ltac:(lia)).
      pose proof (Z.rem_opp_l (rowTime row) 60 ltac:(lia)) as Hro.
      pose proof (Z.rem_nonneg (- rowTime row) 60 ltac:(lia) ltac:(lia)).
      lia. }
  assert (Hm' : rowMinutes row = Z.quot (rowTime row) 60).
  { rewrite Hm, Hdiff, int64_small.
    - rewrite Z.mul_comm. apply Z.quot_mul. lia.
    - rewrite <- Hdiff, Hs.
      destruct (Z_le_gt_dec 0 (rowTime row)) as [Hsg|Hsg].
      + pose proof (Z.rem_nonneg (rowTime row) 60 ltac:(lia) Hsg).
        pose proof (Z.rem_bound_pos (rowTime row) 60 Hsg ltac:(lia)). lia.
      + pose proof (Z.rem_nonpos (rowTime row) 60 ltac:(lia) ltac:(lia)).
        pose proof (Z.rem_opp_l (rowTime row) 60 ltac:(lia)) as Hro.
        pose proof (Z.rem_bound_pos (- rowTime row) 60 ltac:(lia) ltac:(lia)).
        lia. }
  split; [rewrite Hm', Hs; lia|].
  intros Hpos. rewrite Hs, Hm'.
  pose proof (Z.rem_bound_pos (rowTime row) 60 Hpos ltac:(lia)).
  pose proof (Z.quot_pos (rowTime row) 60 Hpos ltac:(lia)). lia.
Qed.

Lemma row_minutes_and_seconds_witness :
  exists row,
    In row (fst (simulate PowBaseOne (1000 * 10 ^ 9) 1 (stateAt 0x1a6f342d)))
    /\ rowTime row = 647
    /\ rowMinutes row * 60 + rowSeconds row = 647.
Proof.
  destruct (simStep_prints PowBaseOne (1000 * 10 ^ 9) (stateAt 0x1a6f342d) 647)
    as [row [Hrow [_ [Ht _]]]]; [vm_compute; reflexivity|].
  exists row.
  destruct (simulate_S PowBaseOne (1000 * 10 ^ 9) 0 (stateAt 0x1a6f342d))
    as [rest Hs].
  assert (Hin : In row (fst (simulate PowBaseOne (1000 * 10 ^ 9) 1
                               (stateAt 0x1a6f342d))))
    by (rewrite Hs, Hrow; left; reflexivity).
  split; [exact Hin|]. split; [exact Ht|].
  rewrite <- Ht.
  exact (proj1 (row_minutes_and_seconds _ _ _ _ _ Hin)).
Defined.

(** X16.  From the fetched window to the summary line.  With at least
    [maxBlocks + 2] fetched headers, a non-zero hash rate and
    [numBlocks >= 1], the program runs through: the loop prints
    [numBlocks] rows, the first for the height after the best one and, when
    an override is given, at the override's difficulty (its low 32 bits),
    and the summary reports [numBlocks] blocks. *)
Theorem simInit_then_simMain
    (Pow : float -> float -> float) (fetched : list BlockHeader)
    (bestHeight : Z) (override : option Z) (hashRate numBlocks : Z) :
  maxBlocks + 2 <= Z.of_nat (length fetched) ->
  hashRate <> 0 -> 0 < numBlocks ->
  0 <= bestHeight -> bestHeight + numBlocks < 2 ^ 63 ->
  exists st first rest total,
    simInit Pow fetched bestHeight override = Ok st
    /\ simMain Pow hashRate numBlocks st
       = (first :: rest,
          Ok (numBlocks, total, int64 (Z.quot total numBlocks)))
    /\ Z.of_nat (length rest) = numBlocks - 1
    /\ rowHeight first = bestHeight + 1
    /\ (forall d, override = Some d -> rowDiff first = uint32 d).
Proof.
  intros Hlen Hh Hn Hlo Hhi.
  destruct (index_in_range fetched (Z.of_nat (length fetched) - 1)) as [b Hb];
    [unfold maxBlocks in Hlen; lia|].
  destruct (calcDiffAdjustKGW_total Pow fetched VertcoinParams
              (int32 bestHeight) Hlen) as [c Hc].
  set (st := {| lastBlocks := fetched; bestHeader := b; height := bestHeight;
                diff := match override with
                        | Some diff64 => uint32 diff64
                        | None => c
                        end;
                totalSeconds := 0 |}).
  assert (Hinit : simInit Pow fetched bestHeight override = Ok st).
  { unfold simInit. rewrite Hb, Hc. reflexivity. }
  destruct (simulate_run Pow hashRate (Z.to_nat numBlocks) st)
    as [rows [st' [Hs [Hl [Hh' [_ [Hrows Ht']]]]]]];
    cbn [st lastBlocks height totalSeconds]; try assumption; try lia.
  destruct rows as [|first rest]; [cbn [length] in Hl; lia|].
  exists st, first, rest, (int64 (0 + sumTimes (first :: rest))).
  split; [exact Hinit|]. split; [|split; [|split]].
  - unfold simMain, simSummary. cbv zeta. rewrite Hs, Hh', Ht'.
    cbn [st height totalSeconds].
    replace (bestHeight + Z.of_nat (Z.to_nat numBlocks) - bestHeight)
      with numBlocks by lia.
    rewrite (int64_small numBlocks) by lia.
    destruct (Z.eqb_spec numBlocks 0) as [E|_]; [lia|]. reflexivity.
  - cbn [length] in Hl. lia.
  - rewrite (Hrows 0%nat first eq_refl). cbn [st height]. lia.
  - intros d ->.
    destruct (simStep_total Pow hashRate st Hh) as [st1 [Hs1 _]];
      [cbn [st lastBlocks]; exact Hlen|].
    destruct (simStep_Ok Pow hashRate st st1 Hs1)
      as [t [row [_ [_ [_ [Hrow [_ [Hrd _]]]]]]]].
    destruct (Z.to_nat numBlocks) as [|n] eqn:En; [lia|].
    destruct (simulate_S Pow hashRate n st) as [rest' Hsplit].
    rewrite Hs, Hrow in Hsplit. cbn [fst app] in Hsplit.
    injection Hsplit as -> _. rewrite Hrd. reflexivity.
Qed.

Lemma simInit_then_simMain_witness :
  exists st first rest total,
    simInit PowBaseOne fetchedWindow 1000000 (Some 0x1d00ffff)
      = Ok st
    /\ simMain PowBaseOne (10 ^ 9) 3 st
       = (first :: rest, Ok (3, total, int64 (Z.quot total 3)))
    /\ rowDiff first = 0x1d00ffff.
Proof.
  destruct (simInit_then_simMain PowBaseOne fetchedWindow
              1000000 (Some 0x1d00ffff) (10 ^ 9) 3)
    as [st [first [rest [total [Hi [Hm [_ [_ Hd]]]]]]]].
  - unfold fetchedWindow. rewrite steadyWindow_length. vm_compute. discriminate.
  - discriminate.
  - lia.
  - lia.
  - lia.
  - exists st, first, rest, total. split; [exact Hi|]. split; [exact Hm|].
    rewrite (Hd _ eq_refl). reflexivity.
Defined.
